(** * Schema-synchronising store: a shallow embedding of [internal/store.go]
    and [internal/server.go]

    The development follows the Go sources function by function.  Go values
    of static type [any] are a tagged union over the dynamic types the
    store can meet, [map[string]any] is a [gmap string any], Go strings are
    [string]s (byte sequences), and the effectful methods of [*Store] are
    programs over a small signature of actions (mutex, engine calls, map
    iteration) that are interpreted twice: by a sequential runner and by an
    interleaving semantics of goroutines. *)

From Stdlib Require Import ZArith Ascii List Lia.
From Stdlib Require String.
From stdpp Require Import base option list gmap strings fin_maps.

Set Default Proof Using "Type".

(** ** Go values and the [DataType] enumeration *)

(** The dynamic types an [any] can carry.  Floats are kept as their IEEE-754
    bit pattern, integers as their mathematical value; no function of the
    store computes with either.  [nil_v] is the untyped nil interface,
    [slice_v] and [map_v] are what [encoding/json] yields for arrays and
    objects. *)
#[local] Unset Elimination Schemes.
Inductive any : Type :=
  | nil_v
  | float64_v (bits : Z)
  | float32_v (bits : Z)
  | int_v (n : Z)
  | int8_v (n : Z)
  | int16_v (n : Z)
  | int32_v (n : Z)
  | int64_v (n : Z)
  | uint_v (n : Z)
  | uint8_v (n : Z)
  | uint16_v (n : Z)
  | uint32_v (n : Z)
  | uint64_v (n : Z)
  | string_v (s : string)
  | bool_v (b : bool)
  | bytes_v (bs : list ascii)
  | slice_v (elems : list any)
  | map_v (fields : list (string * any)).
#[local] Set Elimination Schemes.

(** [type DataType int] with its five constants. *)
Inductive DataType : Type := INVALID | VARCHAR | DOUBLE | INTEGER | BOOLEAN.

#[global] Instance DataType_eq_dec : EqDecision DataType.
Proof. solve_decision. Defined.

(** [func (k DataType) DBType() string] *)
Definition DBType (k : DataType) : string :=
  match k with
  | INVALID => ""
  | VARCHAR => "VARCHAR"
  | DOUBLE => "DOUBLE"
  | INTEGER => "INTEGER"
  | BOOLEAN => "BOOLEAN"
  end.

(** [func NewDataType(in any) DataType]: a type switch on the dynamic type. *)
Definition NewDataType (v : any) : DataType :=
  match v with
  | float64_v _ | float32_v _ => DOUBLE
  | int_v _ | int32_v _ | int64_v _ => INTEGER
  | string_v _ => VARCHAR
  | bool_v _ => BOOLEAN
  | _ => INVALID
  end.

(** [func (k DataType) Valid() bool] *)
Definition Valid (k : DataType) : bool := bool_decide (k ≠ INVALID).

(** The families the specification speaks of. *)
Definition is_float (v : any) : bool :=
  match v with float64_v _ | float32_v _ => true | _ => false end.

Definition is_signed_integer (v : any) : bool :=
  match v with
  | int_v _ | int8_v _ | int16_v _ | int32_v _ | int64_v _ => true
  | _ => false
  end.

Definition is_text (v : any) : bool :=
  match v with string_v _ => true | _ => false end.

Definition is_boolean (v : any) : bool :=
  match v with bool_v _ => true | _ => false end.

(** The integer types the type switch lists: [int], [int32], [int64]. *)
Definition is_listed_integer (v : any) : bool :=
  match v with int_v _ | int32_v _ | int64_v _ => true | _ => false end.

(** [%T]: the name of the dynamic type. *)
Definition typeName (v : any) : string :=
  match v with
  | nil_v => "<nil>"
  | float64_v _ => "float64"
  | float32_v _ => "float32"
  | int_v _ => "int"
  | int8_v _ => "int8"
  | int16_v _ => "int16"
  | int32_v _ => "int32"
  | int64_v _ => "int64"
  | uint_v _ => "uint"
  | uint8_v _ => "uint8"
  | uint16_v _ => "uint16"
  | uint32_v _ => "uint32"
  | uint64_v _ => "uint64"
  | string_v _ => "string"
  | bool_v _ => "bool"
  | bytes_v _ => "[]uint8"
  | slice_v _ => "[]interface {}"
  | map_v _ => "map[string]interface {}"
  end.

(** ** Errors *)

(** Go [error] values: [errors.New] and [fmt.Errorf] without [%w] build a
    plain message, [fmt.Errorf("<prefix>%w", err)] wraps [err]. *)
Inductive error : Type :=
  | errors_New (msg : string)
  | Errorf_w (prefix : string) (inner : error).

(** [err.Error()] *)
Fixpoint Error (e : error) : string :=
  match e with
  | errors_New msg => msg
  | Errorf_w prefix inner => prefix +:+ Error inner
  end.


(** [strings.Join] *)
Fixpoint Join (elems : list string) (sep : string) : string :=
  match elems with
  | [] => ""
  | [x] => x
  | x :: rest => x +:+ sep +:+ Join rest sep
  end.

(** ** The [regexp] fragment used by the store

    Both patterns of the store are a sequence of literal text and of
    [[a-zA-Z_]+] repetitions, one of which is a capture group.  Go strings
    are byte sequences and every byte of the patterns is ASCII, so matching
    is modelled on [list ascii]. *)
Module regexp.

Inductive node : Type :=
  | Lit (text : list ascii)            (* literal text *)
  | Plus (cls : ascii → bool)          (* [cls]+ *)
  | CapPlus (cls : ascii → bool).      (* ([cls]+), a capture group *)

Definition Regexp : Type := list node.

(** [strings.HasPrefix] with the remainder. *)
Fixpoint strip_prefix (lit s : list ascii) : option (list ascii) :=
  match lit, s with
  | [], _ => Some s
  | a :: lit', b :: s' => if decide (a = b) then strip_prefix lit' s' else None
  | _ :: _, [] => None
  end.

(** Length of the longest prefix of [s] inside the class. *)
Fixpoint run_length (cls : ascii → bool) (s : list ascii) : nat :=
  match s with
  | c :: s' => if cls c then S (run_length cls s') else 0
  | [] => 0
  end.

(** A greedy repetition: the longest repetition is tried first and the
    matcher backs off one character at a time while the rest of the
    pattern, the continuation [k], fails. *)
Fixpoint try_lengths {R} (n : nat) (s : list ascii)
    (k : list ascii → list ascii → option R) : option R :=
  match n with
  | 0 => None
  | S n' =>
      match k (take n s) (drop n s) with
      | Some r => Some r
      | None => try_lengths n' s k
      end
  end.

(** Match [re] at the start of [s]: the text left over and the captures. *)
Fixpoint match_here (re : Regexp) (s : list ascii)
    : option (list ascii * list (list ascii)) :=
  match re with
  | [] => Some (s, [])
  | Lit text :: re' =>
      match strip_prefix text s with
      | Some s' => match_here re' s'
      | None => None
      end
  | Plus cls :: re' =>
      try_lengths (run_length cls s) s (λ _ rest, match_here re' rest)
  | CapPlus cls :: re' =>
      try_lengths (run_length cls s) s
        (λ m rest,
           match match_here re' rest with
           | Some (rest', caps) => Some (rest', m :: caps)
           | None => None
           end)
  end.

(** The leftmost match: the matched text followed by the captures, as
    [FindStringSubmatch] returns them. *)
Fixpoint find (re : Regexp) (s : list ascii) : option (list (list ascii)) :=
  match match_here re s with
  | Some (rest, caps) => Some (take (length s - length rest) s :: caps)
  | None =>
      match s with
      | [] => None
      | _ :: s' => find re s'
      end
  end.

(** [Regexp.MatchString] *)
Definition MatchString (re : Regexp) (s : string) : bool :=
  bool_decide (is_Some (find re (String.list_ascii_of_string s))).

(** [Regexp.FindStringSubmatch]; [nil] is the empty list. *)
Definition FindStringSubmatch (re : Regexp) (s : string) : list string :=
  match find re (String.list_ascii_of_string s) with
  | Some ms => String.string_of_list_ascii <$> ms
  | None => []
  end.

(** The declarative reading of a pattern: [matches re m caps] when the
    text [m] is in the language of [re], with captures [caps]. *)
Inductive matches : Regexp → list ascii → list (list ascii) → Prop :=
  | matches_nil : matches [] [] []
  | matches_Lit text re m caps :
      matches re m caps → matches (Lit text :: re) (text ++ m) caps
  | matches_Plus cls re r m caps :
      r ≠ [] → Forall (λ c, cls c = true) r → matches re m caps →
      matches (Plus cls :: re) (r ++ m) caps
  | matches_CapPlus cls re r m caps :
      r ≠ [] → Forall (λ c, cls c = true) r → matches re m caps →
      matches (CapPlus cls :: re) (r ++ m) (r :: caps).

End regexp.

(** [[a-zA-Z_]] *)
Definition letter_or_underscore (c : ascii) : bool :=
  let n := nat_of_ascii c in
  ((65 <=? n) && (n <=? 90)) || ((97 <=? n) && (n <=? 122)) || (n =? 95).

(** The double quote character. *)
Definition dquote : list ascii := [ascii_of_nat 34].

(** [var missingTableRegex] *)
Definition missingTableRegex : regexp.Regexp :=
  [ regexp.Lit (String.list_ascii_of_string "Catalog Error: Table with name ");
    regexp.Plus letter_or_underscore;
    regexp.Lit (String.list_ascii_of_string " does not exist!") ].

(** [var missingColumnRegex]; the pattern is a raw string, its quotes are
    plain characters. *)
Definition missingColumnRegex : regexp.Regexp :=
  [ regexp.Lit (String.list_ascii_of_string "Binder Error: Table " ++ dquote);
    regexp.Plus letter_or_underscore;
    regexp.Lit (dquote ++ String.list_ascii_of_string " does not have a column with name "
                  ++ dquote);
    regexp.CapPlus letter_or_underscore;
    regexp.Lit dquote ].

(** Names the patterns accept: non-empty, letters and underscores only. *)
Definition all_letters (name : string) : bool :=
  forallb letter_or_underscore (String.list_ascii_of_string name).

Definition plain_name (name : string) : bool :=
  bool_decide (name ≠ "") && all_letters name.

(** The text of each pattern with the names filled in: the message by which
    the engine reports that table [name] does not exist, and that table
    [table] has no column [column]. *)
Definition quote : string := String.string_of_list_ascii dquote.

Definition missing_table_message (name : string) : string :=
  "Catalog Error: Table with name " +:+ name +:+ " does not exist!".

Definition missing_column_message (table column : string) : string :=
  "Binder Error: Table " +:+ quote +:+ table +:+ quote
    +:+ " does not have a column with name " +:+ quote +:+ column +:+ quote.

(** Names written without a space and without a double quote, as an
    unquoted SQL identifier is. *)
Definition is_token (name : string) : bool :=
  forallb (λ c, negb (bool_decide (c = ascii_of_nat 32))
                && negb (bool_decide (c = ascii_of_nat 34)))
          (String.list_ascii_of_string name).

(** ** Statements *)

(** [type InsertStatement struct] *)
Record InsertStatement : Type := {
  Table : string;
  Columns : gmap string any;
}.

(** [type QueryStatement struct] *)
Record QueryStatement : Type := {
  Query : string;
}.

(** ** Programs

    What a method of the store does to the world around it: it takes or
    releases [s.writeLock], calls the engine through [database/sql], or
    ranges over a map, for which the runtime picks an iteration order.
    [OutOfFuel] stands for a [for] loop that has not ended within the
    number of iterations the model was given. *)

(** What [rows.Columns], the [rows.Next]/[rows.Scan] cursor and [rows.Err]
    report for one result set. *)
Record Rows : Type := {
  rows_Columns : list string + error;
  rows_Scan : list (list any + error);    (* one entry per [rows.Next] *)
  rows_Err : option error;
}.

Inductive Prog (A : Type) : Type :=
  | Ret (a : A)
  | Lock (k : Prog A)
  | Unlock (k : Prog A)
  | Exec (query : string) (args : list any) (k : option error → Prog A)
  | Qry (query : string) (k : Rows + error → Prog A)
  | Range (m : gmap string any) (k : list (string * any) → Prog A)
  | OutOfFuel.

Arguments Ret {A} a.
Arguments Lock {A} k.
Arguments Unlock {A} k.
Arguments Exec {A} query args k.
Arguments Qry {A} query k.
Arguments Range {A} m k.
Arguments OutOfFuel {A}.

Fixpoint bind {A B} (p : Prog A) (f : A → Prog B) : Prog B :=
  match p with
  | Ret a => f a
  | Lock k => Lock (bind k f)
  | Unlock k => Unlock (bind k f)
  | Exec q args k => Exec q args (λ e, bind (k e) f)
  | Qry q k => Qry q (λ r, bind (k r) f)
  | Range m k => Range m (λ kvs, bind (k kvs) f)
  | OutOfFuel => OutOfFuel
  end.

#[global] Instance Prog_ret : MRet Prog := @Ret.
#[global] Instance Prog_bind : MBind Prog := λ A B f p, bind p f.

(** [s.writeLock.Lock()], [s.writeLock.Unlock()] *)
Definition writeLock_Lock : Prog unit := Lock (Ret ()).
Definition writeLock_Unlock : Prog unit := Unlock (Ret ()).
(** [s.db.ExecContext(ctx, query, args...)]; the [sql.Result] is dropped
    by every caller. *)
Definition ExecContext (query : string) (args : list any) : Prog (option error) :=
  Exec query args Ret.
(** [s.db.QueryContext(ctx, query)] *)
Definition QueryContext (query : string) : Prog (Rows + error) := Qry query Ret.
(** [for k, v := range m]: the pairs in the order of this iteration. *)
Definition range (m : gmap string any) : Prog (list (string * any)) := Range m Ret.

(** ** Statement builders *)

(** The loop of [CreateTableQueryString] over the pairs still to visit,
    [cols] being the slice built so far. *)
Fixpoint CreateTable_loop (kvs : list (string * any)) (cols : list string)
    : list string + error :=
  match kvs with
  | [] => inl cols
  | (k, v) :: rest =>
      let kind := NewDataType v in
      if negb (Valid kind) then
        inr (errors_New ("create Table: invalid data type for column (" +:+ k
                           +:+ "): " +:+ typeName v))
      else CreateTable_loop rest (cols ++ [k +:+ " " +:+ DBType kind])
  end.

(** [func (s *InsertStatement) CreateTableQueryString() (string, error)] *)
Definition CreateTableQueryString (s : InsertStatement) : Prog (string + error) :=
  kvs ← range (Columns s);
  match CreateTable_loop kvs [] with
  | inr err => mret (inr err)
  | inl cols =>
      mret (inl ("CREATE TABLE IF NOT EXISTS " +:+ Table s +:+ "("
                   +:+ Join cols ", " +:+ ")"))
  end.

(** [func (s *InsertStatement) AddColumnQueryString(name string) (string, error)] *)
Definition AddColumnQueryString (s : InsertStatement) (name : string)
    : string + error :=
  match Columns s !! name with
  | None =>
      inr (errors_New ("add column: column not present in InsertStatement: "
                         +:+ name))
  | Some value =>
      let kind := NewDataType value in
      if negb (Valid kind) then
        inr (errors_New ("add column: invalid data type for column (" +:+ name
                           +:+ "): " +:+ typeName value))
      else
        inl ("ALTER TABLE " +:+ Table s +:+ " ADD COLUMN " +:+ name +:+ " "
               +:+ DBType kind)
  end.

(** [func (s *InsertStatement) Validate() error]; the receiver may be nil. *)
Definition Validate (s : option InsertStatement) : option error :=
  match s with
  | None => Some (errors_New "invalid InsertStatement: nil")
  | Some s =>
      if decide (Table s = "") then
        Some (errors_New "invalid InsertStatement: missing Table name")
      else if decide (size (Columns s) = 0) then
        Some (errors_New "invalid InsertStatement: no Columns")
      else None
  end.

(** The loop of [InsertStatement.Query]: the three slices grow together. *)
Fixpoint Query_loop (kvs : list (string * any))
    (keys : list string) (values : list any) (placeholders : list string)
    : list string * list any * list string :=
  match kvs with
  | [] => (keys, values, placeholders)
  | (k, v) :: rest =>
      Query_loop rest (keys ++ [k]) (values ++ [v]) (placeholders ++ ["?"])
  end.

(** [func (s *InsertStatement) Query() (string, []any, error)] *)
Definition InsertStatement_Query (s : InsertStatement)
    : Prog (string * list any * option error) :=
  kvs ← range (Columns s);
  let '(keys, values, placeholders) := Query_loop kvs [] [] [] in
  mret ("INSERT INTO " +:+ Table s +:+ " (" +:+ Join keys ", "
          +:+ ") VALUES (" +:+ Join placeholders ", " +:+ ")",
        values, None).

(** [func (s *QueryStatement) Valid() error]; the receiver may be nil. *)
Definition QueryStatement_Valid (s : option QueryStatement) : option error :=
  match s with
  | None => Some (errors_New "invalid QueryStatement: nil")
  | Some s =>
      if decide (Query s = "") then
        Some (errors_New "invalid QueryStatement: Query empty")
      else None
  end.

(** ** The store *)

(** The body of the [for i, colName := range cols] loop of [Store.Query]:
    [m[colName] = *val], where [val] points at [columns[i]]; a slot that
    [rows.Scan] did not fill keeps the zero value, nil. *)
Definition decode_row (cols : list string) (vals : list any) : gmap string any :=
  foldl (λ m '(i, colName), <[colName := default nil_v (vals !! i)]> m)
        ∅ (imap pair cols).

(** The [for rows.Next()] loop of [Store.Query], [out] being the slice built
    so far. *)
Fixpoint Scan_loop (cols : list string) (scans : list (list any + error))
    (out : list (gmap string any)) : list (gmap string any) + error :=
  match scans with
  | [] => inl out
  | inr err :: _ => inr (Errorf_w "scanning column: " err)
  | inl vals :: rest => Scan_loop cols rest (out ++ [decode_row cols vals])
  end.

(** [func (s *Store) Query(ctx, stmt *QueryStatement) ([]map[string]any, error)].
    [stmt.Query] is read only after [stmt.Valid] has excluded a nil [stmt].
    The deferred [rows.Close] only logs. *)
Definition Store_Query (stmt : option QueryStatement)
    : Prog (list (gmap string any) + error) :=
  match QueryStatement_Valid stmt with
  | Some err => mret (inr err)
  | None =>
      res ← QueryContext (from_option Query "" stmt);
      match res with
      | inr err => mret (inr (Errorf_w "query: " err))
      | inl rows =>
          match rows_Columns rows with
          | inr err => mret (inr (Errorf_w "Query response Columns: " err))
          | inl cols =>
              match Scan_loop cols (rows_Scan rows) [] with
              | inr err => mret (inr err)
              | inl out =>
                  match rows_Err rows with
                  | Some err => mret (inr (Errorf_w "flushing rows: " err))
                  | None => mret (inl out)
                  end
              end
          end
      end
  end.

(** [func (s *Store) CreateTable(ctx, stmt *InsertStatement) error] *)
Definition CreateTable (stmt : InsertStatement) : Prog (option error) :=
  built ← CreateTableQueryString stmt;
  match built with
  | inr err => mret (Some err)
  | inl query =>
      err ← ExecContext query [];
      match err with
      | Some err => mret (Some (Errorf_w "creating Table: " err))
      | None => mret None
      end
  end.

(** [func (s *Store) AddColumn(ctx, stmt *InsertStatement, name string) error] *)
Definition AddColumn (stmt : InsertStatement) (name : string) : Prog (option error) :=
  match AddColumnQueryString stmt name with
  | inr err => mret (Some err)
  | inl query =>
      err ← ExecContext query [];
      match err with
      | Some err => mret (Some (Errorf_w "creating Table: " err))
      | None => mret None
      end
  end.

(** [func (s *Store) handleInsertError(ctx, stmt *InsertStatement, err error) error].
    [matches[1]] is in range whenever [missingColumnRegex] matched (lemma
    [FindStringSubmatch_missingColumn] below). *)
Definition handleInsertError (stmt : InsertStatement) (err : option error)
    : Prog (option error) :=
  match err with
  | None => mret None
  | Some err =>
      if regexp.MatchString missingTableRegex (Error err) then
        CreateTable stmt
      else if regexp.MatchString missingColumnRegex (Error err) then
        let matches := regexp.FindStringSubmatch missingColumnRegex (Error err) in
        AddColumn stmt (default "" (matches !! 1))
      else mret (Some (Errorf_w "inserting values: " err))
  end.

(** One pass through the body of the [for] loop of [Store.Insert]:
    [Some ret] when the pass leaves the loop and [Insert] returns [ret]
    ([break] on a successful insert, [return handledErr] on a failed
    recovery), [None] when the loop goes round again. *)
Definition Insert_body (stmt : InsertStatement) (query : string)
    (values : list any) : Prog (option (option error)) :=
  insertErr ← ExecContext query values;
  match insertErr with
  | None => mret (Some None)
  | Some _ =>
      handledErr ← handleInsertError stmt insertErr;
      match handledErr with
      | Some _ => mret (Some handledErr)
      | None => mret None
      end
  end.

(** The [for] loop of [Store.Insert], cut off after [fuel] iterations. *)
Fixpoint Insert_loop (fuel : nat) (stmt : InsertStatement)
    (query : string) (values : list any) : Prog (option error) :=
  match fuel with
  | 0 => OutOfFuel
  | S fuel' =>
      pass ← Insert_body stmt query values;
      match pass with
      | Some ret => mret ret
      | None => Insert_loop fuel' stmt query values
      end
  end.

(** [func (s *Store) Insert(ctx, stmt *InsertStatement) error], for a
    non-nil [stmt]; the deferred unlock runs when the body has returned. *)
Definition Insert (fuel : nat) (stmt : InsertStatement) : Prog (option error) :=
  writeLock_Lock;;
  ret ← ('(query, values, err) ← InsertStatement_Query stmt;
         match err with
         | Some _ => mret err
         | None => Insert_loop fuel stmt query values
         end);
  writeLock_Unlock;;
  mret ret.

(** ** The HTTP handlers of [server.go], after request decoding *)

Inductive Response : Type :=
  | WriteHeader (code : nat)
  | Write (body : string).

(** [func (s *Server) writeError(w, code, msg, err)] *)
Definition writeError (code : nat) (err : error) : list Response :=
  [WriteHeader code; Write (Error err)].

(** [func (s *Server) HandleData(w, r)], for a request whose body decoded to
    [columns] and whose [Table] parameter is [table].  There is no [return]
    after the validation error is written. *)
Definition HandleData (fuel : nat) (table : string) (columns : gmap string any)
    : Prog (list Response) :=
  let stmt := {| Table := table; Columns := columns |} in
  let written :=
    match Validate (Some stmt) with
    | Some err => writeError 400 err
    | None => []
    end in
  err ← Insert fuel stmt;
  match err with
  | Some err => mret (written ++ writeError 500 err)
  | None => mret (written ++ [WriteHeader 200])
  end.

(** ** Running a program against an engine

    The environment of the store: the engine behind [database/sql], whose
    state and answers are opaque, and the iteration order the runtime
    picks for each [range]. *)
Record Env : Type := {
  St : Type;
  env_exec : St → string → list any → St * option error;
  env_query : St → string → St * (Rows + error);
  env_range : St → gmap string any → St * list (string * any);
}.

Inductive Call : Type :=
  | CallExec (query : string) (args : list any)
  | CallQuery (query : string).

(** The engine state, the state of [writeLock] and, for the statements
    about engine interaction, the calls made so far, oldest first. *)
Record World (E : Env) : Type := {
  state : St E;
  locked : bool;
  calls : list Call;
}.
Arguments state {E} w.
Arguments locked {E} w.
Arguments calls {E} w.

Inductive Outcome (E : Env) (A : Type) : Type :=
  | Returned (a : A) (w : World E)
  | Blocked (w : World E)        (* waiting for a mutex nobody releases *)
  | Fault (w : World E)          (* unlock of an unlocked mutex *)
  | Unfinished (w : World E).    (* the loop has not ended within the fuel *)
Arguments Returned {E A} a w.
Arguments Blocked {E A} w.
Arguments Fault {E A} w.
Arguments Unfinished {E A} w.

Fixpoint run {E : Env} {A} (p : Prog A) (w : World E) : Outcome E A :=
  match p with
  | Ret a => Returned a w
  | Lock k =>
      if locked w then Blocked w
      else run k {| state := state w; locked := true; calls := calls w |}
  | Unlock k =>
      if locked w
      then run k {| state := state w; locked := false; calls := calls w |}
      else Fault w
  | Exec q args k =>
      let '(st, err) := env_exec E (state w) q args in
      run (k err) {| state := st; locked := locked w;
                     calls := calls w ++ [CallExec q args] |}
  | Qry q k =>
      let '(st, res) := env_query E (state w) q in
      run (k res) {| state := st; locked := locked w;
                     calls := calls w ++ [CallQuery q] |}
  | Range m k =>
      let '(st, kvs) := env_range E (state w) m in
      run (k kvs) {| state := st; locked := locked w; calls := calls w |}
  | OutOfFuel => Unfinished w
  end.

(** ** Test doubles

    Engines with a scripted behaviour, in the manner of a mock [sql.DB]:
    their state counts the calls received.  All of them iterate maps in
    the order of [map_to_list]. *)

Definition canonical_order (n : nat) (m : gmap string any)
    : nat * list (string * any) := (n, map_to_list m).

Definition no_rows : Rows :=
  {| rows_Columns := inl []; rows_Scan := []; rows_Err := None |}.

(** Accepts every statement. *)
Definition accepting_engine : Env :=
  {| St := nat;
     env_exec := λ n _ _, (S n, None);
     env_query := λ n _, (S n, inl no_rows);
     env_range := canonical_order |}.

(** Answers every [INSERT] with [err] and accepts everything else: an
    engine on which the corrective DDL never takes effect. *)
Definition is_insert (query : string) : bool :=
  match regexp.strip_prefix (String.list_ascii_of_string "INSERT ")
          (String.list_ascii_of_string query) with
  | Some _ => true
  | None => false
  end.

Definition stubborn_engine (err : error) : Env :=
  {| St := nat;
     env_exec := λ n query _,
       (S n, if is_insert query then Some err else None);
     env_query := λ n _, (S n, inl no_rows);
     env_range := canonical_order |}.

(** Rejects the first [n] inserts with [err], then accepts; its state is the
    number of rejections still to come. *)
Definition countdown_engine (err : error) : Env :=
  {| St := nat;
     env_exec := λ n query _,
       if is_insert query then
         match n with
         | 0 => (0, None)
         | S n' => (n', Some err)
         end
       else (n, None);
     env_query := λ n _, (n, inl no_rows);
     env_range := canonical_order |}.

Definition fresh {E : Env} (st : St E) : World E :=
  {| state := st; locked := false; calls := [] |}.

(** The statement of [TestStoreReadWrite]. *)
Definition test_statement : InsertStatement :=
  {| Table := "test_table";
     Columns := <["column_a" := int_v 1]> (<["column_b" := string_v "2"]> ∅) |}.

Definition missing_table_error : error :=
  errors_New "Catalog Error: Table with name test_table does not exist!".

(** An engine that reads the text of its statements.  Its state tells
    whether [test_table] exists: a [CREATE TABLE IF NOT EXISTS] for it
    creates it, an [INSERT] into it is accepted once it exists and is
    answered with the missing-table message before, and every other
    statement is answered with the missing-table message of another table,
    whatever the state. *)
Definition has_prefix (prefix query : string) : bool :=
  match regexp.strip_prefix (String.list_ascii_of_string prefix)
          (String.list_ascii_of_string query) with
  | Some _ => true
  | None => false
  end.

Definition catalog_engine : Env :=
  {| St := bool;
     env_exec := λ created query _,
       if has_prefix "CREATE TABLE IF NOT EXISTS test_table(" query
       then (true, None)
       else if has_prefix "INSERT INTO test_table " query
       then (created, if created then None else Some missing_table_error)
       else (created,
             Some (errors_New
                     "Catalog Error: Table with name other_table does not exist!"));
     env_query := λ created _, (created, inl no_rows);
     env_range := λ created m, (created, map_to_list m) |}.

(** The tables of [catalog_engine] that [test_statement] still lacks. *)
Definition missing_tables (created : bool) : nat :=
  if created then 0 else 1.

(** Sequencing of outcomes: only a returned value is passed on. *)
Definition outcome_bind {E : Env} {A B} (o : Outcome E A)
    (f : A → World E → Outcome E B) : Outcome E B :=
  match o with
  | Returned a w => f a w
  | Blocked w => Blocked w
  | Fault w => Fault w
  | Unfinished w => Unfinished w
  end.

Definition is_Returned {E : Env} {A} (o : Outcome E A) : bool :=
  match o with Returned _ _ => true | _ => false end.

(** A table name that itself contains a missing-table message, and a
    statement for the table of that name, written as a quoted identifier. *)
Definition nested_name : string :=
  "x Catalog Error: Table with name y does not exist!".

Definition nested_statement : InsertStatement :=
  {| Table := quote +:+ nested_name +:+ quote;
     Columns := <["column_a" := int_v 1]> ∅ |}.

(** The statements that [Validate] rejects. *)
Definition no_table_statement : InsertStatement :=
  {| Table := ""; Columns := <["column_a" := int_v 1]> ∅ |}.

Definition no_columns_statement : InsertStatement :=
  {| Table := "test_table"; Columns := ∅ |}.

(** The statement and the corrective DDL that [test_statement] gives rise
    to, under the iteration order of the test doubles. *)
Definition test_insert : string :=
  "INSERT INTO test_table (column_a, column_b) VALUES (?, ?)".
Definition test_create : string :=
  "CREATE TABLE IF NOT EXISTS test_table(column_a INTEGER, column_b VARCHAR)".


(** ** Goroutines

    Requests are served concurrently, one goroutine each, over one store:
    one mutex and one engine.  A schedule names, step by step, the
    goroutine that performs its next action; a goroutine that is named
    while it waits for the mutex, or after it has returned, stays where it
    is.  The engine answers as in the sequential runs, [env_range]
    supplying the iteration order of each [range] from the engine state. *)

Record Goroutine : Type := {
  result : Type;
  code : Prog result;
}.

Inductive Request : Type :=
  | InsertRequest (stmt : InsertStatement)
  | QueryRequest (stmt : option QueryStatement).

(** The goroutine of a request: [store.Insert] or [store.Query]. *)
Definition serve (fuel : nat) (r : Request) : Goroutine :=
  match r with
  | InsertRequest stmt => {| code := Insert fuel stmt |}
  | QueryRequest stmt => {| code := Store_Query stmt |}
  end.

(** An engine call as it happened: the goroutine that made it and the
    goroutine that held [writeLock] at that moment. *)
Record Event : Type := {
  caller : nat;
  holder : option nat;
  call : Call;
}.

Record Config (E : Env) : Type := {
  goroutines : list Goroutine;
  writeLock : option nat;          (* who took the mutex; [None] when free *)
  engine : St E;
  history : list Event;            (* oldest first *)
}.
Arguments goroutines {E} c.
Arguments writeLock {E} c.
Arguments engine {E} c.
Arguments history {E} c.

Definition initial {E : Env} (fuel : nat) (reqs : list Request) (st : St E)
    : Config E :=
  {| goroutines := serve fuel <$> reqs; writeLock := None; engine := st;
     history := [] |}.

(** Goroutine [i] performs its next action.  [Lock] goes through only when
    the mutex is free; [Unlock] frees it whoever took it, as [sync.Mutex]
    does. *)
Definition sched_step {E : Env} (i : nat) (c : Config E) : Config E :=
  match goroutines c !! i with
  | None => c
  | Some g =>
      let resume (p : Prog (result g)) :=
        <[i := {| result := result g; code := p |}]> (goroutines c) in
      match code g with
      | Ret _ | OutOfFuel => c
      | Lock k =>
          match writeLock c with
          | Some _ => c
          | None =>
              {| goroutines := resume k; writeLock := Some i;
                 engine := engine c; history := history c |}
          end
      | Unlock k =>
          match writeLock c with
          | Some _ =>
              {| goroutines := resume k; writeLock := None;
                 engine := engine c; history := history c |}
          | None => c
          end
      | Exec q args k =>
          let '(st, err) := env_exec E (engine c) q args in
          {| goroutines := resume (k err); writeLock := writeLock c;
             engine := st;
             history := history c ++ [{| caller := i; holder := writeLock c;
                                         call := CallExec q args |}] |}
      | Qry q k =>
          let '(st, res) := env_query E (engine c) q in
          {| goroutines := resume (k res); writeLock := writeLock c;
             engine := st;
             history := history c ++ [{| caller := i; holder := writeLock c;
                                         call := CallQuery q |}] |}
      | Range m k =>
          let '(st, kvs) := env_range E (engine c) m in
          {| goroutines := resume (k kvs); writeLock := writeLock c;
             engine := st; history := history c |}
      end
  end.

Definition run_schedule {E : Env} (sched : list nat) (c : Config E) : Config E :=
  foldl (λ c i, sched_step i c) c sched.

(** Goroutine [i] serves an insert. *)
Definition writer (reqs : list Request) (i : nat) : Prop :=
  ∃ stmt, reqs !! i = Some (InsertRequest stmt).

(** Shapes of a program: [critical] programs call the engine and then
    release the mutex just before they return (or loop forever);
    [waiting] programs are about to take the mutex for such a section;
    [lockless] programs never touch the mutex. *)
Inductive critical {A} : Prog A → Prop :=
  | critical_Unlock r : critical (Unlock (Ret r))
  | critical_Exec q args k : (∀ e, critical (k e)) → critical (Exec q args k)
  | critical_Range m k : (∀ kvs, critical (k kvs)) → critical (Range m k)
  | critical_OutOfFuel : critical OutOfFuel.

Inductive lockless {A} : Prog A → Prop :=
  | lockless_Ret r : lockless (Ret r)
  | lockless_Exec q args k : (∀ e, lockless (k e)) → lockless (Exec q args k)
  | lockless_Qry q k : (∀ r, lockless (k r)) → lockless (Qry q k)
  | lockless_Range m k : (∀ kvs, lockless (k kvs)) → lockless (Range m k)
  | lockless_OutOfFuel : lockless OutOfFuel.

(** Programs that only call the engine: no mutex, no query. *)
Inductive engine_only {A} : Prog A → Prop :=
  | engine_only_Ret r : engine_only (Ret r)
  | engine_only_Exec q args k :
      (∀ e, engine_only (k e)) → engine_only (Exec q args k)
  | engine_only_Range m k :
      (∀ kvs, engine_only (k kvs)) → engine_only (Range m k)
  | engine_only_OutOfFuel : engine_only OutOfFuel.

Definition waiting {A} (p : Prog A) : Prop := ∃ k, p = Lock k ∧ critical k.

Definition finished {A} (p : Prog A) : Prop := ∃ r, p = Ret r.

Definition query_one : QueryStatement := {| Query := "select 1" |}.

(** What holds of goroutine [i] in every configuration: an insert is
    waiting for the mutex, having called nothing yet, or is inside its
    critical section and holds the mutex, or has returned and does not hold
    it; a query never touches the mutex. *)
Definition thread_ok {E : Env} (reqs : list Request) (c : Config E)
    (i : nat) (g : Goroutine) : Prop :=
  match reqs !! i with
  | Some (InsertRequest _) =>
      (waiting (code g) ∧ writeLock c ≠ Some i
         ∧ ∀ e, e ∈ history c → caller e ≠ i)
      ∨ (critical (code g) ∧ writeLock c = Some i)
      ∨ (finished (code g) ∧ writeLock c ≠ Some i)
  | Some (QueryRequest _) => lockless (code g)
  | None => False
  end.

(** Between two engine calls of one insert there is no engine call of
    another insert. *)
Definition serialized (reqs : list Request) (h : list Event) : Prop :=
  ∀ a b d ea eb ed,
    a < b < d →
    h !! a = Some ea → h !! b = Some eb → h !! d = Some ed →
    caller ea = caller ed →
    writer reqs (caller ea) → writer reqs (caller eb) →
    caller eb = caller ea.

(** The calls of the goroutine that holds the mutex are the latest calls
    of any insert. *)
Definition holder_is_last (reqs : list Request) (lock : option nat)
    (h : list Event) : Prop :=
  ∀ i a b ea eb,
    lock = Some i → a < b →
    h !! a = Some ea → h !! b = Some eb →
    caller ea = i → writer reqs (caller eb) → caller eb = i.

Record invariant {E : Env} (reqs : list Request) (c : Config E) : Prop := {
  inv_threads : ∀ i g, goroutines c !! i = Some g → thread_ok reqs c i g;
  inv_held : ∀ e, e ∈ history c → writer reqs (caller e) →
             holder e = Some (caller e);
  inv_serial : serialized reqs (history c);
  inv_last : holder_is_last reqs (writeLock c) (history c);
}.

(** The engine's message for a column of [test_statement] that the table
    lacks, and a statement whose only column has no data type. *)
Definition missing_column_error : error :=
  errors_New (missing_column_message "test_table" "column_b").

Definition null_statement : InsertStatement :=
  {| Table := "test_table"; Columns := <["column_a" := nil_v]> ∅ |}.

(** ** Concurrent inserts against sequential inserts *)

(** The world that a sequential caller would see in a configuration. *)
Definition world_of {E : Env} (c : Config E) : World E :=
  {| state := engine c;
     locked := match writeLock c with Some _ => true | None => false end;
     calls := call <$> history c |}.

(** [store.Insert] for each statement in turn, each call starting when the
    one before has returned: the values returned and the final world, or
    [None] when some call does not return. *)
Fixpoint run_inserts {E : Env} (fuel : nat) (stmts : list InsertStatement)
    (w : World E) : option (list (option error) * World E) :=
  match stmts with
  | [] => Some ([], w)
  | stmt :: rest =>
      match run (Insert fuel stmt) w with
      | Returned ret w' =>
          match run_inserts fuel rest w' with
          | Some (rets, w'') => Some (ret :: rets, w'')
          | None => None
          end
      | _ => None
      end
  end.

(** The goroutine of an insert that has returned [ret]. *)
Definition returned (ret : option error) : Goroutine :=
  {| result := option error; code := Ret ret |}.

(** What relates a configuration of concurrent inserts to a sequential run:
    the inserts [order] have returned, in that order, what the sequential
    run of their statements returns; the insert that holds the mutex is
    where the sequential run would be after them; the others have not
    started. *)
Definition serial_inv {E : Env} (fuel : nat) (stmts0 : list InsertStatement)
    (w0 : World E) (c : Config E) : Prop :=
  ∃ (order : list nat) (stmts : list InsertStatement)
    (rets : list (option error)) (w_done : World E),
    length (goroutines c) = length stmts0
    ∧ NoDup order
    ∧ Forall2 (λ i stmt, stmts0 !! i = Some stmt) order stmts
    ∧ run_inserts fuel stmts w0 = Some (rets, w_done)
    ∧ locked w_done = false
    ∧ Forall2 (λ i ret, goroutines c !! i = Some (returned ret)) order rets
    ∧ (∀ i stmt, stmts0 !! i = Some stmt → i ∉ order →
         writeLock c ≠ Some i →
         goroutines c !! i = Some (serve fuel (InsertRequest stmt)))
    ∧ match writeLock c with
      | None => world_of c = w_done
      | Some i =>
          (i ∉ order)
          ∧ ∃ stmt p, stmts0 !! i = Some stmt
              ∧ goroutines c !! i = Some {| result := option error; code := p |}
              ∧ critical p
              ∧ run (Insert fuel stmt) w_done = run p (world_of c)
      end.


(** ** The calls of one insert *)

(** The world in which a run ended or stopped. *)
Definition final_world {E : Env} {A} (o : Outcome E A) : World E :=
  match o with
  | Returned _ w | Blocked w | Fault w | Unfinished w => w
  end.

(** A corrective statement: a [CREATE TABLE IF NOT EXISTS] or an
    [ALTER TABLE], executed without parameters. *)
Definition is_ddl (c : Call) : Prop :=
  ∃ rest, c = CallExec ("CREATE TABLE IF NOT EXISTS " +:+ rest) []
          ∨ c = CallExec ("ALTER TABLE " +:+ rest) [].

(** The engine calls of a retry loop around the call [ins]: [ins], then
    again and again one corrective statement followed by [ins]. *)
Inductive retry_trace (ins : Call) : list Call → Prop :=
  | retry_none : retry_trace ins []
  | retry_insert : retry_trace ins [ins]
  | retry_recover ddl rest :
      is_ddl ddl → retry_trace ins rest → retry_trace ins (ins :: ddl :: rest).
(** * Properties *)

(** ** The type inferencer *)

(** C4, as the code has it: [NewDataType] is a total function that sends
    [float64] and [float32] to [DOUBLE] (the spec's FLOAT64), exactly the
    integer types [int], [int32] and [int64] to [INTEGER], strings to
    [VARCHAR] (the spec's TEXT) whatever their content, booleans to
    [BOOLEAN], and every other value, the signed integers [int8] and
    [int16] among them, to [INVALID]. *)
Theorem NewDataType_dispatch (v : any) :
  NewDataType v =
    (if is_float v then DOUBLE
     else if is_listed_integer v then INTEGER
     else if is_text v then VARCHAR
     else if is_boolean v then BOOLEAN
     else INVALID)
  ∧ (∀ digits : string, NewDataType (string_v digits) = VARCHAR)
  ∧ (∀ n : Z, NewDataType (int8_v n) = INVALID ∧ NewDataType (int16_v n) = INVALID)
  ∧ (is_listed_integer v = true ↔ NewDataType v = INTEGER).
Proof.
  split; [by destruct v|]. split; [done|]. split; [done|].
  by destruct v.
Qed.

(** C4 as stated fails: [int8] is a signed integer width, and an [int8]
    value is classified [INVALID], not [INTEGER]. *)
Lemma NewDataType_int8_not_INTEGER :
  is_signed_integer (int8_v 5) = true ∧ NewDataType (int8_v 5) = INVALID
  ∧ NewDataType (int8_v 5) ≠ INTEGER.
Proof. by repeat split. Qed.

(** ** The statement builders *)

(** The column definitions of a [CREATE TABLE], in iteration order. *)
Definition column_defs (kvs : list (string * any)) : list string :=
  (λ '(k, v), k +:+ " " +:+ DBType (NewDataType v)) <$> kvs.

Lemma CreateTable_loop_valid kvs cols :
  Forall (λ kv, NewDataType kv.2 ≠ INVALID) kvs →
  CreateTable_loop kvs cols = inl (cols ++ column_defs kvs).
Proof.
  revert cols. induction kvs as [|[k v] kvs IH]; intros cols Hall; simpl.
  - by rewrite app_nil_r.
  - inversion_clear Hall as [|? ? Hv Hrest]. simpl in Hv.
    unfold Valid. rewrite bool_decide_eq_true_2 by done. simpl.
    rewrite IH by done. by rewrite <- app_assoc.
Qed.

Lemma CreateTable_loop_invalid kvs cols :
  Exists (λ kv, NewDataType kv.2 = INVALID) kvs →
  ∃ k v, (k, v) ∈ kvs ∧ NewDataType v = INVALID ∧
    CreateTable_loop kvs cols =
      inr (errors_New ("create Table: invalid data type for column (" +:+ k
                         +:+ "): " +:+ typeName v)).
Proof.
  revert cols. induction kvs as [|[k v] kvs IH]; intros cols Hex.
  - by apply Exists_nil in Hex.
  - simpl. destruct (decide (NewDataType v = INVALID)) as [Hv|Hv].
    + exists k, v. split; [left|]. split; [done|].
      unfold Valid. by rewrite bool_decide_eq_false_2 by (by intros ?).
    + unfold Valid. rewrite bool_decide_eq_true_2 by done. simpl.
      apply Exists_cons in Hex as [Hex|Hex]; [done|].
      destruct (IH (cols ++ [k +:+ " " +:+ DBType (NewDataType v)]) Hex)
        as (k' & v' & Hin & Hinv & Heq).
      exists k', v'. split; [by right|]. by split.
Qed.

Lemma Query_loop_spec kvs keys values placeholders :
  Query_loop kvs keys values placeholders =
    (keys ++ kvs.*1, values ++ kvs.*2,
     placeholders ++ replicate (length kvs) "?").
Proof.
  revert keys values placeholders.
  induction kvs as [|[k v] kvs IH]; intros keys values placeholders; simpl.
  - by rewrite !app_nil_r.
  - rewrite IH. by rewrite <- !app_assoc.
Qed.

(** An iteration order of a map lists each of its entries once. *)
Lemma iteration_order_lookup (m : gmap string any) kvs k v :
  kvs ≡ₚ map_to_list m → (k, v) ∈ kvs ↔ m !! k = Some v.
Proof. intros Hp. rewrite Hp. apply elem_of_map_to_list. Qed.

Lemma iteration_order_NoDup (m : gmap string any) kvs :
  kvs ≡ₚ map_to_list m → NoDup kvs.*1.
Proof. intros Hp. rewrite Hp. apply NoDup_fst_map_to_list. Qed.

Lemma iteration_order_length (m : gmap string any) kvs :
  kvs ≡ₚ map_to_list m → length kvs = size m.
Proof. intros Hp. rewrite Hp. by rewrite length_map_to_list. Qed.

(** C3: whatever order the runtime iterates [s.Columns] in, the create-table
    builder makes no engine call and either every column has a valid type
    and the result is [CREATE TABLE IF NOT EXISTS <table>(<col> <DBTYPE>, ...)]
    with one definition for each column of the statement, or some column
    has type [INVALID] and the result is an error that names such a
    column, with no SQL text. *)
Theorem CreateTableQueryString_spec (E : Env) (w : World E)
    (s : InsertStatement) (st : St E) (kvs : list (string * any)) :
  env_range E (state w) (Columns s) = (st, kvs) →
  kvs ≡ₚ map_to_list (Columns s) →
  let w' := {| state := st; locked := locked w; calls := calls w |} in
  if decide (map_Forall (λ _ v, NewDataType v ≠ INVALID) (Columns s)) then
    run (CreateTableQueryString s) w =
      Returned (inl ("CREATE TABLE IF NOT EXISTS " +:+ Table s +:+ "("
                       +:+ Join (column_defs kvs) ", " +:+ ")")) w'
    ∧ length (column_defs kvs) = size (Columns s)
    ∧ ∀ col v, Columns s !! col = Some v →
        col +:+ " " +:+ DBType (NewDataType v) ∈ column_defs kvs
  else
    ∃ col v, Columns s !! col = Some v ∧ NewDataType v = INVALID ∧
      run (CreateTableQueryString s) w =
        Returned (inr (errors_New
          ("create Table: invalid data type for column (" +:+ col +:+ "): "
             +:+ typeName v))) w'.
Proof.
  intros Hrange Hperm w'. unfold CreateTableQueryString. simpl. rewrite Hrange.
  case_decide as Hall.
  - assert (Forall (λ kv, NewDataType kv.2 ≠ INVALID) kvs) as Hvalid.
    { apply Forall_forall. intros [k v] Hin. simpl.
      apply (iteration_order_lookup _ _ _ _ Hperm) in Hin. by eapply Hall. }
    rewrite CreateTable_loop_valid by done. simpl. split; [done|].
    split.
    + unfold column_defs. rewrite length_fmap.
      by apply iteration_order_length.
    + intros col v Hcol. unfold column_defs.
      apply list_elem_of_fmap. exists (col, v). split; [done|].
      by apply (iteration_order_lookup _ _ _ _ Hperm).
  - assert (Exists (λ kv, NewDataType kv.2 = INVALID) kvs) as Hex.
    { apply map_not_Forall in Hall as (k & v & Hk & Hv); [|apply _].
      apply Exists_exists. exists (k, v). simpl.
      split; [by apply (iteration_order_lookup _ _ _ _ Hperm)|].
      by destruct (decide (NewDataType v = INVALID)). }
    destruct (CreateTable_loop_invalid kvs [] Hex) as (k & v & Hin & Hv & ->).
    exists k, v. split; [by apply (iteration_order_lookup _ _ _ _ Hperm)|].
    by split.
Qed.

Lemma test_statement_valid :
  map_Forall (λ _ v, NewDataType v ≠ INVALID) (Columns test_statement).
Proof.
  intros k v Hk. unfold test_statement in Hk. simpl in Hk.
  apply lookup_insert_Some in Hk as [[_ <-]|[_ Hk]]; [done|].
  apply lookup_insert_Some in Hk as [[_ <-]|[_ Hk]]; [done|].
  by rewrite lookup_empty in Hk.
Qed.

Lemma CreateTableQueryString_spec_witness :
  run (CreateTableQueryString test_statement) (@fresh accepting_engine 0) =
    Returned
      (inl "CREATE TABLE IF NOT EXISTS test_table(column_a INTEGER, column_b VARCHAR)")
      (@fresh accepting_engine 0).
Proof.
  pose proof (CreateTableQueryString_spec accepting_engine (@fresh accepting_engine 0)
                test_statement 0 (map_to_list (Columns test_statement))
                eq_refl (reflexivity _)) as H.
  cbv zeta in H. case_decide as Hall.
  - destruct H as [-> _]. reflexivity.
  - destruct (Hall test_statement_valid).
Defined.

(** C6: the add-column builder fails when the name is not a column of the
    statement, fails when the value found there has type [INVALID], and
    otherwise returns [ALTER TABLE <table> ADD COLUMN <col> <DBTYPE>] with
    the DB type inferred from that value. *)
Theorem AddColumnQueryString_spec (s : InsertStatement) (name : string) :
  match Columns s !! name with
  | None =>
      AddColumnQueryString s name =
        inr (errors_New ("add column: column not present in InsertStatement: "
                           +:+ name))
  | Some value =>
      if decide (NewDataType value = INVALID) then
        AddColumnQueryString s name =
          inr (errors_New ("add column: invalid data type for column ("
                             +:+ name +:+ "): " +:+ typeName value))
      else
        AddColumnQueryString s name =
          inl ("ALTER TABLE " +:+ Table s +:+ " ADD COLUMN " +:+ name +:+ " "
                 +:+ DBType (NewDataType value))
        ∧ DBType (NewDataType value) ≠ ""
  end.
Proof.
  unfold AddColumnQueryString. destruct (Columns s !! name) as [value|]; [|done].
  case_decide as Hv.
  - rewrite Hv. done.
  - unfold Valid. rewrite bool_decide_eq_true_2 by done. simpl.
    split; [done|]. by destruct (NewDataType value).
Qed.

(** C7: whatever order the runtime iterates [s.Columns] in, the insert
    builder makes no engine call and returns, without an error and without
    looking at the values, the text
    [INSERT INTO <table> (<cols>) VALUES (?, ...)] with the columns in
    iteration order and one placeholder per column, and a parameter list
    whose i-th element is the value of the i-th listed column. *)
Theorem InsertStatement_Query_spec (E : Env) (w : World E)
    (s : InsertStatement) (st : St E) (kvs : list (string * any)) :
  env_range E (state w) (Columns s) = (st, kvs) →
  kvs ≡ₚ map_to_list (Columns s) →
  run (InsertStatement_Query s) w =
    Returned ("INSERT INTO " +:+ Table s +:+ " (" +:+ Join kvs.*1 ", "
                +:+ ") VALUES (" +:+ Join (replicate (length kvs.*1) "?") ", "
                +:+ ")",
              kvs.*2, None)
             {| state := st; locked := locked w; calls := calls w |}
  ∧ length kvs.*1 = size (Columns s)
  ∧ length kvs.*2 = length kvs.*1
  ∧ NoDup kvs.*1
  ∧ (∀ col, is_Some (Columns s !! col) ↔ col ∈ kvs.*1)
  ∧ (∀ i col, kvs.*1 !! i = Some col → kvs.*2 !! i = Columns s !! col).
Proof.
  intros Hrange Hperm. unfold InsertStatement_Query. simpl. rewrite Hrange.
  rewrite Query_loop_spec. simpl. rewrite !length_fmap.
  split; [done|]. split; [by apply iteration_order_length|].
  split; [done|]. split; [by eapply iteration_order_NoDup|].
  split.
  - intros col. rewrite list_elem_of_fmap. split.
    + intros [v Hv]. exists (col, v). split; [done|].
      by apply (iteration_order_lookup _ _ _ _ Hperm).
    + intros ([k v] & -> & Hin). exists v. simpl.
      by apply (iteration_order_lookup _ _ _ _ Hperm).
  - intros i col Hi. rewrite list_lookup_fmap in Hi.
    destruct (kvs !! i) as [[k v]|] eqn:Hkv; [|done].
    simpl in Hi. injection Hi as ->.
    rewrite list_lookup_fmap, Hkv. simpl. symmetry.
    apply (iteration_order_lookup _ _ _ _ Hperm).
    by eapply list_elem_of_lookup_2.
Qed.

Lemma InsertStatement_Query_spec_witness :
  run (InsertStatement_Query test_statement) (@fresh accepting_engine 0) =
    Returned ("INSERT INTO test_table (column_a, column_b) VALUES (?, ?)",
              [int_v 1; string_v "2"], None)
             (@fresh accepting_engine 0).
Proof.
  destruct (InsertStatement_Query_spec accepting_engine (@fresh accepting_engine 0)
              test_statement 0 (map_to_list (Columns test_statement))
              eq_refl (reflexivity _)) as [-> _].
  reflexivity.
Defined.

(** ** The matcher against the declarative reading of a pattern *)

Import regexp.

Lemma strip_prefix_Some lit s s' :
  strip_prefix lit s = Some s' ↔ s = lit ++ s'.
Proof.
  revert s. induction lit as [|a lit IH]; intros s; simpl.
  - split; [by intros [= ->]|by intros ->].
  - destruct s as [|b s]; [done|]. case_decide as Hab.
    + subst b. rewrite IH. split; [by intros ->|by intros [= ->]].
    + split; [done|]. intros [= -> _]. done.
Qed.

Lemma strip_prefix_app lit s : strip_prefix lit (lit ++ s) = Some s.
Proof. by apply strip_prefix_Some. Qed.

Lemma run_length_le cls s : run_length cls s ≤ length s.
Proof. induction s as [|c s IH]; simpl; [lia|]. destruct (cls c); simpl; lia. Qed.

Lemma run_length_take cls s n :
  n ≤ run_length cls s → Forall (λ c, cls c = true) (take n s).
Proof.
  revert n. induction s as [|c s IH]; intros n Hn; simpl in *.
  - rewrite take_nil. constructor.
  - destruct n as [|n]; [constructor|]. simpl.
    destruct (cls c) eqn:Hc; [|lia]. constructor; [done|]. apply IH. lia.
Qed.

Lemma run_length_app cls r s :
  Forall (λ c, cls c = true) r → length r ≤ run_length cls (r ++ s).
Proof.
  induction 1 as [|c r Hc _ IH]; simpl; [lia|]. rewrite Hc. lia.
Qed.

(** A run stops at the first character outside the class. *)
Lemma run_length_stop cls r c s :
  Forall (λ c, cls c = true) r → cls c = false →
  run_length cls (r ++ c :: s) = length r.
Proof.
  intros Hr Hc. induction Hr as [|c' r Hc' _ IH]; simpl.
  - by rewrite Hc.
  - by rewrite Hc', IH.
Qed.

Lemma try_lengths_Some {R} n s (k : list ascii → list ascii → option R) r :
  try_lengths n s k = Some r →
  ∃ j, 1 ≤ j ≤ n ∧ k (take j s) (drop j s) = Some r.
Proof.
  induction n as [|n IH]; simpl; [done|].
  destruct (k (take (S n) s) (drop (S n) s)) as [r'|] eqn:Hk.
  - intros [= ->]. exists (S n). split; [lia|done].
  - intros Hn. destruct (IH Hn) as (j & Hj & Hkj). exists j. split; [lia|done].
Qed.

Lemma try_lengths_is_Some {R} n s (k : list ascii → list ascii → option R) j :
  1 ≤ j ≤ n → is_Some (k (take j s) (drop j s)) → is_Some (try_lengths n s k).
Proof.
  intros Hj Hk. induction n as [|n IH]; [lia|]. simpl.
  destruct (k (take (S n) s) (drop (S n) s)) as [r'|] eqn:Hkn; [by eexists|].
  destruct (decide (j = S n)) as [->|Hne].
  - rewrite Hkn in Hk. by destruct Hk.
  - apply IH. lia.
Qed.

Lemma try_lengths_None {R} n s (k : list ascii → list ascii → option R) :
  (∀ j, 1 ≤ j ≤ n → k (take j s) (drop j s) = None) →
  try_lengths n s k = None.
Proof.
  intros Hk. induction n as [|n IH]; [done|]. simpl.
  rewrite Hk by lia. apply IH. intros j Hj. apply Hk. lia.
Qed.

(** Soundness: what [match_here] consumes is in the language of the
    pattern, with the captures it reports. *)
Lemma match_here_sound re s rest caps :
  match_here re s = Some (rest, caps) →
  ∃ m, s = m ++ rest ∧ matches re m caps.
Proof.
  revert s rest caps. induction re as [|nd re IH]; intros s rest caps; simpl.
  - intros [= -> <-]. exists []. split; [done|constructor].
  - destruct nd as [text|cls|cls].
    + destruct (strip_prefix text s) as [s'|] eqn:Hs; [|done].
      apply strip_prefix_Some in Hs as ->. intros Hm.
      destruct (IH _ _ _ Hm) as (m & -> & Hmm).
      exists (text ++ m). split; [by rewrite <- app_assoc|by constructor].
    + intros Hm. apply try_lengths_Some in Hm as (j & Hj & Hm).
      destruct (IH _ _ _ Hm) as (m & Hdrop & Hmm).
      exists (take j s ++ m). split.
      * by rewrite <- app_assoc, <- Hdrop, take_drop.
      * constructor; [|by apply run_length_take; lia|done].
        intros Hnil. apply (f_equal length) in Hnil.
        rewrite length_take in Hnil. pose proof (run_length_le cls s).
        simpl in Hnil. lia.
    + intros Hm. apply try_lengths_Some in Hm as (j & Hj & Hm).
      destruct (match_here re (drop j s)) as [[rest' caps']|] eqn:Hre; [|done].
      injection Hm as -> <-.
      destruct (IH _ _ _ Hre) as (m & Hdrop & Hmm).
      exists (take j s ++ m). split.
      * by rewrite <- app_assoc, <- Hdrop, take_drop.
      * constructor; [|by apply run_length_take; lia|done].
        intros Hnil. apply (f_equal length) in Hnil.
        rewrite length_take in Hnil. pose proof (run_length_le cls s).
        simpl in Hnil. lia.
Qed.

(** Completeness: text in the language of the pattern is matched, whatever
    follows it. *)
Lemma match_here_complete re m caps rest :
  matches re m caps → is_Some (match_here re (m ++ rest)).
Proof.
  intros Hm. revert rest.
  induction Hm as [|text re m caps _ IH|cls re r m caps Hne Hr _ IH
                   |cls re r m caps Hne Hr _ IH]; intros rest; simpl.
  - by eexists.
  - by rewrite <- app_assoc, strip_prefix_app.
  - rewrite <- app_assoc.
    apply (try_lengths_is_Some _ _ _ (length r)).
    + split; [destruct r; simpl; [done|lia]|by apply run_length_app].
    + by rewrite drop_app_length.
  - rewrite <- app_assoc.
    apply (try_lengths_is_Some _ _ _ (length r)).
    + split; [destruct r; simpl; [done|lia]|by apply run_length_app].
    + rewrite drop_app_length. destruct (IH rest) as [[rest' caps'] ->].
      by eexists.
Qed.

Lemma find_sound re s ms :
  find re s = Some ms →
  ∃ pre m rest caps, ms = m :: caps ∧ s = pre ++ m ++ rest ∧ matches re m caps.
Proof.
  induction s as [|c s IH]; simpl.
  - destruct (match_here re []) as [[rest caps]|] eqn:Hm; [|done].
    intros [= <-]. destruct (match_here_sound _ _ _ _ Hm) as (m & Hs & Hmm).
    symmetry in Hs. apply app_eq_nil in Hs as [-> ->].
    by exists [], [], [], caps.
  - destruct (match_here re (c :: s)) as [[rest caps]|] eqn:Hm.
    + intros [= <-]. destruct (match_here_sound _ _ _ _ Hm) as (m & Hs & Hmm).
      exists [], m, rest, caps. split; [|done].
      f_equal. change (S (length s)) with (length (c :: s)). rewrite Hs.
      rewrite length_app.
      replace (length m + length rest - length rest) with (length m) by lia.
      by rewrite take_app_length.
    + intros Hf. destruct (IH Hf) as (pre & m & rest & caps & -> & -> & Hmm).
      by exists (c :: pre), m, rest, caps.
Qed.

Lemma find_complete re pre m rest caps :
  matches re m caps → is_Some (find re (pre ++ m ++ rest)).
Proof.
  intros Hm. induction pre as [|c pre IH]; simpl.
  - destruct (match_here_complete re m caps rest Hm) as [[rest' caps'] Hh].
    destruct (m ++ rest); simpl in *; rewrite Hh; by eexists.
  - destruct (match_here re (c :: pre ++ m ++ rest)) as [[rest' caps']|];
      [by eexists|done].
Qed.

(** ** The two patterns of the store, on strings *)

Lemma list_ascii_app (a b : string) :
  String.list_ascii_of_string (a +:+ b) =
    String.list_ascii_of_string a ++ String.list_ascii_of_string b.
Proof. induction a as [|c a IH]; simpl; [done|]. by rewrite IH. Qed.

Lemma string_of_list_app (a b : list ascii) :
  String.string_of_list_ascii (a ++ b) =
    String.string_of_list_ascii a +:+ String.string_of_list_ascii b.
Proof. induction a as [|c a IH]; simpl; [done|]. by rewrite IH. Qed.

Lemma plain_name_spec (name : string) :
  plain_name name = true ↔
  String.list_ascii_of_string name ≠ [] ∧
  Forall (λ c, letter_or_underscore c = true) (String.list_ascii_of_string name).
Proof.
  unfold plain_name, all_letters.
  rewrite andb_true_iff, bool_decide_eq_true, forallb_forall, Forall_forall.
  split; intros [Hne Hall]; (split; [|intros c Hc; apply Hall;
    by apply list_elem_of_In]); intros Hnil.
  - by destruct name.
  - subst name. by apply Hne.
Qed.

Lemma plain_name_of_list (r : list ascii) :
  r ≠ [] → Forall (λ c, letter_or_underscore c = true) r →
  plain_name (String.string_of_list_ascii r) = true.
Proof.
  intros Hne Hall. apply plain_name_spec.
  by rewrite String.list_ascii_of_string_of_list_ascii.
Qed.

Lemma matches_nil_inv m caps : matches [] m caps → m = [] ∧ caps = [].
Proof. by inversion 1. Qed.

Lemma matches_Lit_inv text re m caps :
  matches (Lit text :: re) m caps → ∃ m', m = text ++ m' ∧ matches re m' caps.
Proof. inversion 1; subst. eauto. Qed.

Lemma matches_Plus_inv cls re m caps :
  matches (Plus cls :: re) m caps →
  ∃ r m', r ≠ [] ∧ Forall (λ c, cls c = true) r ∧ m = r ++ m' ∧
    matches re m' caps.
Proof. inversion 1; subst. eauto 10. Qed.

Lemma matches_CapPlus_inv cls re m caps :
  matches (CapPlus cls :: re) m caps →
  ∃ r m' caps', r ≠ [] ∧ Forall (λ c, cls c = true) r ∧ m = r ++ m' ∧
    caps = r :: caps' ∧ matches re m' caps'.
Proof. inversion 1; subst. eauto 10. Qed.

(** Both sides are the same characters, grouped differently. *)
Ltac same_text :=
  rewrite ?list_ascii_app, ?String.list_ascii_of_string_of_list_ascii;
  rewrite <- ?app_assoc; simpl; rewrite ?app_nil_r; reflexivity.

Lemma matches_missingTable m caps :
  matches missingTableRegex m caps ↔
  ∃ name, plain_name name = true ∧ caps = [] ∧
    m = String.list_ascii_of_string (missing_table_message name).
Proof.
  unfold missingTableRegex, missing_table_message. split.
  - intros H. apply matches_Lit_inv in H as (m1 & -> & H).
    apply matches_Plus_inv in H as (r & m2 & Hne & Hr & -> & H).
    apply matches_Lit_inv in H as (m3 & -> & H).
    apply matches_nil_inv in H as [-> ->].
    exists (String.string_of_list_ascii r).
    split; [by apply plain_name_of_list|]. split; [done|]. same_text.
  - intros (name & Hname & -> & ->). apply plain_name_spec in Hname as [Hne Hall].
    rewrite !list_ascii_app.
    constructor. constructor; [done..|].
    rewrite <- (app_nil_r (String.list_ascii_of_string " does not exist!")).
    constructor. constructor.
Qed.

Lemma matches_missingColumn m caps :
  matches missingColumnRegex m caps ↔
  ∃ table column, plain_name table = true ∧ plain_name column = true ∧
    caps = [String.list_ascii_of_string column] ∧
    m = String.list_ascii_of_string (missing_column_message table column).
Proof.
  unfold missingColumnRegex, missing_column_message, quote. split.
  - intros H. apply matches_Lit_inv in H as (m1 & -> & H).
    apply matches_Plus_inv in H as (r1 & m2 & Hne1 & Hr1 & -> & H).
    apply matches_Lit_inv in H as (m3 & -> & H).
    apply matches_CapPlus_inv in H as (r2 & m4 & caps' & Hne2 & Hr2 & -> & -> & H).
    apply matches_Lit_inv in H as (m5 & -> & H).
    apply matches_nil_inv in H as [-> ->].
    exists (String.string_of_list_ascii r1), (String.string_of_list_ascii r2).
    split; [by apply plain_name_of_list|].
    split; [by apply plain_name_of_list|].
    split; [by rewrite String.list_ascii_of_string_of_list_ascii|]. same_text.
  - intros (table & column & Ht & Hc & -> & ->).
    apply plain_name_spec in Ht as [Hne1 Hall1].
    apply plain_name_spec in Hc as [Hne2 Hall2].
    replace (String.list_ascii_of_string
               ("Binder Error: Table " +:+ String.string_of_list_ascii dquote
                  +:+ table +:+ String.string_of_list_ascii dquote
                  +:+ " does not have a column with name "
                  +:+ String.string_of_list_ascii dquote +:+ column
                  +:+ String.string_of_list_ascii dquote))
      with ((String.list_ascii_of_string "Binder Error: Table " ++ dquote)
              ++ String.list_ascii_of_string table
              ++ (dquote ++ String.list_ascii_of_string
                              " does not have a column with name " ++ dquote)
              ++ String.list_ascii_of_string column ++ dquote ++ [])
      by (symmetry; same_text).
    constructor. constructor; [done..|]. constructor. constructor; [done..|].
    constructor. constructor.
Qed.

(** [missingTableRegex] matches exactly the texts that contain a
    missing-table message for a plain name. *)
Lemma MatchString_missingTable (text : string) :
  MatchString missingTableRegex text = true ↔
  ∃ pre name post, plain_name name = true ∧
    text = pre +:+ missing_table_message name +:+ post.
Proof.
  unfold MatchString. rewrite bool_decide_eq_true. split.
  - intros [ms Hf]. apply find_sound in Hf
      as (pre & m & rest & caps & _ & Htext & Hm).
    apply matches_missingTable in Hm as (name & Hname & _ & ->).
    exists (String.string_of_list_ascii pre), name,
      (String.string_of_list_ascii rest). split; [done|].
    rewrite <- (String.string_of_list_ascii_of_string text), Htext.
    by rewrite !string_of_list_app, String.string_of_list_ascii_of_string.
  - intros (pre & name & post & Hname & ->). rewrite !list_ascii_app.
    eapply find_complete. apply matches_missingTable. by exists name.
Qed.

(** When [missingColumnRegex] matches, [FindStringSubmatch] returns the
    matched message and, at index 1, the column name it contains; texts
    that contain a missing-column message for plain names do match. *)
Lemma FindStringSubmatch_missingColumn (text : string) :
  MatchString missingColumnRegex text = true →
  ∃ pre table column post,
    plain_name table = true ∧ plain_name column = true ∧
    text = pre +:+ missing_column_message table column +:+ post ∧
    FindStringSubmatch missingColumnRegex text =
      [missing_column_message table column; column].
Proof.
  unfold MatchString, FindStringSubmatch. rewrite bool_decide_eq_true.
  intros [ms Hf]. rewrite Hf. apply find_sound in Hf
    as (pre & m & rest & caps & -> & Htext & Hm).
  apply matches_missingColumn in Hm as (table & column & Ht & Hc & -> & ->).
  exists (String.string_of_list_ascii pre), table, column,
    (String.string_of_list_ascii rest). split; [done|]. split; [done|].
  split.
  - rewrite <- (String.string_of_list_ascii_of_string text), Htext.
    by rewrite !string_of_list_app, String.string_of_list_ascii_of_string.
  - simpl. by rewrite !String.string_of_list_ascii_of_string.
Qed.

Lemma MatchString_missingColumn (pre table column post : string) :
  plain_name table = true → plain_name column = true →
  MatchString missingColumnRegex
    (pre +:+ missing_column_message table column +:+ post) = true.
Proof.
  intros Ht Hc. unfold MatchString. rewrite bool_decide_eq_true.
  rewrite !list_ascii_app. eapply find_complete.
  apply matches_missingColumn. by exists table, column.
Qed.

(** ** Running programs *)

Lemma run_bind {E : Env} {A B} (p : Prog A) (f : A → Prog B) (w : World E) :
  run (p ≫= f) w = outcome_bind (run p w) (λ a w', run (f a) w').
Proof.
  revert w. induction p as [a|k IH|k IH|q args k IH|q k IH|m k IH|];
    intros w; simpl; try done.
  - destruct (locked w); [done|]. apply IH.
  - destruct (locked w); [|done]. apply IH.
  - destruct (env_exec E (state w) q args) as [st err]. apply IH.
  - destruct (env_query E (state w) q) as [st res]. apply IH.
  - destruct (env_range E (state w) m) as [st kvs]. apply IH.
Qed.

(** What [AddColumn] does: nothing but report the builder's error, or one
    [ALTER TABLE] call whose error, if any, is wrapped. *)
Lemma run_AddColumn {E : Env} (w : World E) stmt name :
  run (AddColumn stmt name) w =
    match AddColumnQueryString stmt name with
    | inr builderErr => Returned (Some builderErr) w
    | inl ddl =>
        let '(st, r) := env_exec E (state w) ddl [] in
        Returned (Errorf_w "creating Table: " <$> r)
          {| state := st; locked := locked w;
             calls := calls w ++ [CallExec ddl []] |}
    end.
Proof.
  unfold AddColumn. destruct (AddColumnQueryString stmt name) as [ddl|e]; [|done].
  simpl. destruct (env_exec E (state w) ddl []) as [st [e|]]; done.
Qed.

(** What [CreateTable] does: nothing but report the builder's error, or
    one [CREATE TABLE] call whose error, if any, is wrapped. *)
Lemma run_CreateTable {E : Env} (w : World E) stmt :
  run (CreateTable stmt) w =
    let '(st, kvs) := env_range E (state w) (Columns stmt) in
    match CreateTable_loop kvs [] with
    | inr builderErr =>
        Returned (Some builderErr)
          {| state := st; locked := locked w; calls := calls w |}
    | inl cols =>
        let ddl := "CREATE TABLE IF NOT EXISTS " +:+ Table stmt +:+ "("
                     +:+ Join cols ", " +:+ ")" in
        let '(st', r) := env_exec E st ddl [] in
        Returned (Errorf_w "creating Table: " <$> r)
          {| state := st'; locked := locked w;
             calls := calls w ++ [CallExec ddl []] |}
    end.
Proof.
  unfold CreateTable, CreateTableQueryString. simpl.
  destruct (env_range E (state w) (Columns stmt)) as [st kvs].
  destruct (CreateTable_loop kvs []) as [cols|e]; [|done]. simpl.
  destruct (env_exec E st _ []) as [st' [e|]]; done.
Qed.


(** ** Texts the patterns do not match *)

Lemma find_None_cons re c s :
  match_here re (c :: s) = None → find re s = None → find re (c :: s) = None.
Proof. intros Hh Hf. simpl. by rewrite Hh. Qed.

(** A text [u ++ s] whose part [u] has no space does not start with the
    literal [word ++ " " ++ more], provided [s] does not continue a started
    [word]. *)
Lemma strip_prefix_token (word more s u : list ascii) :
  (∀ j, j ≤ length word →
     strip_prefix (drop j word ++ ascii_of_nat 32 :: more) s = None) →
  ascii_of_nat 32 ∉ u →
  strip_prefix (word ++ ascii_of_nat 32 :: more) (u ++ s) = None.
Proof.
  revert u. induction word as [|a w IH]; intros u Hcont Hu.
  - destruct u as [|c u]; [apply (Hcont 0); simpl; lia|]. simpl.
    case_decide as Hc; [|done]. destruct Hu. subst c. left.
  - destruct u as [|c u]; [apply (Hcont 0); simpl; lia|]. simpl.
    case_decide as Hc; [|done]. apply IH.
    + intros j Hj. apply (Hcont (S j)). simpl. lia.
    + intros Hin. apply Hu. by right.
Qed.

(** So a pattern that starts with such a literal matches nowhere inside
    [u ++ s], provided it matches nowhere in [s]. *)
Lemma find_token (word more : list ascii) (re : Regexp) (s u : list ascii) :
  (∀ j, j ≤ length word →
     strip_prefix (drop j word ++ ascii_of_nat 32 :: more) s = None) →
  find (Lit (word ++ ascii_of_nat 32 :: more) :: re) s = None →
  ascii_of_nat 32 ∉ u →
  find (Lit (word ++ ascii_of_nat 32 :: more) :: re) (u ++ s) = None.
Proof.
  intros Hcont Hs. induction u as [|c u IH]; intros Hu; [done|].
  change ((c :: u) ++ s) with (c :: (u ++ s)). apply find_None_cons.
  - simpl match_here. change (c :: (u ++ s)) with ((c :: u) ++ s).
    by rewrite strip_prefix_token.
  - apply IH. intros Hin. apply Hu. by right.
Qed.

(** A name with a character outside the class: its longest run of class
    characters stops before that character. *)
Lemma not_all_letters_split (name : string) :
  all_letters name = false →
  ∃ r c rest, String.list_ascii_of_string name = r ++ c :: rest ∧
    Forall (λ c, letter_or_underscore c = true) r ∧
    letter_or_underscore c = false.
Proof.
  unfold all_letters. induction (String.list_ascii_of_string name) as [|a l IH].
  - done.
  - simpl. destruct (letter_or_underscore a) eqn:Ha; simpl.
    + intros Hl. destruct (IH Hl) as (r & c & rest & -> & Hr & Hc).
      exists (a :: r), c, rest. split; [done|]. split; [by constructor|done].
    + intros _. exists [], a, l. split; [done|]. split; [constructor|done].
Qed.

Lemma is_token_spec (name : string) :
  is_token name = true →
  (ascii_of_nat 32 ∉ String.list_ascii_of_string name) ∧
  (ascii_of_nat 34 ∉ String.list_ascii_of_string name).
Proof.
  unfold is_token. rewrite forallb_forall.
  intros Hall. split; intros Hin%list_elem_of_In; apply Hall in Hin;
    (by rewrite bool_decide_eq_true_2 in Hin by done).
Qed.

(** A greedy repetition over a run [r] that stops at a character [c]
    fails when the rest of the pattern fails after every non-empty prefix
    of [r]. *)
Lemma try_lengths_stop {R} cls r c rest (k : list ascii → list ascii → option R) :
  Forall (λ c, cls c = true) r → cls c = false →
  (∀ j, 1 ≤ j < length r → k (take j r) (drop j r ++ c :: rest) = None) →
  k r (c :: rest) = None →
  try_lengths (run_length cls (r ++ c :: rest)) (r ++ c :: rest) k = None.
Proof.
  intros Hr Hc Hshort Hfull. rewrite run_length_stop by done.
  apply try_lengths_None. intros j Hj.
  destruct (decide (j = length r)) as [->|Hne].
  - by rewrite take_app_length, drop_app_length.
  - rewrite take_app_le, drop_app_le by lia. apply Hshort. lia.
Qed.

Lemma strip_prefix_drop q lit r s j :
  q ∉ r → j < length r → strip_prefix (q :: lit) (drop j r ++ s) = None.
Proof.
  intros Hr Hj. destruct (drop j r) as [|h t] eqn:Hd.
  - apply (f_equal length) in Hd. rewrite length_drop in Hd. simpl in Hd. lia.
  - simpl. case_decide as Hq; [|done]. subst h. destruct Hr.
    apply (subseteq_drop j r). rewrite Hd. left.
Qed.

Lemma all_letters_Forall (name : string) :
  all_letters name = true →
  Forall (λ c, letter_or_underscore c = true) (String.list_ascii_of_string name).
Proof.
  unfold all_letters. rewrite forallb_forall, Forall_forall.
  intros Hall c Hc. apply Hall. by apply list_elem_of_In.
Qed.

(** Skips the positions of a text written out character by character at
    which the pattern fails on its first literal. *)
Ltac skip_literal := repeat (apply find_None_cons; [reflexivity|]).

Ltac small_index j Hj :=
  do 8 (try (destruct j as [|j]; [reflexivity|])); simpl in Hj; lia.

Lemma match_here_Lit_app text re s :
  match_here (Lit text :: re) (text ++ s) = match_here re s.
Proof. simpl. by rewrite strip_prefix_app. Qed.

(** At its own position, the missing-table message for a token with a
    character outside the class is not matched by [missingTableRegex]: the
    repetition stops at that character, which is not the space the pattern
    needs next. *)
Lemma match_here_table_message (name : string) :
  is_token name = true → all_letters name = false →
  match_here missingTableRegex
    (String.list_ascii_of_string "Catalog Error: Table with name "
       ++ String.list_ascii_of_string name
       ++ String.list_ascii_of_string " does not exist!") = None.
Proof.
  intros [Hspace _]%is_token_spec Hletters.
  apply not_all_letters_split in Hletters as (r & c & rest & HT & Hr & Hc).
  rewrite HT in *. clear HT.
  assert (ascii_of_nat 32 ∉ r) as Hr32.
  { intros Hin. apply Hspace, elem_of_app. by left. }
  assert (ascii_of_nat 32 ≠ c) as Hc32.
  { intros <-. apply Hspace, elem_of_app. right. left. }
  unfold missingTableRegex. rewrite match_here_Lit_app.
  rewrite <- app_assoc.
  change ((c :: rest) ++ ?s) with (c :: (rest ++ s)).
  cbv beta iota delta [match_here]. fold match_here.
  change (String.list_ascii_of_string " does not exist!")
    with (ascii_of_nat 32 :: String.list_ascii_of_string "does not exist!").
  apply try_lengths_stop; [done..| |].
  - intros j Hj. rewrite strip_prefix_drop; [done..|lia].
  - cbn [strip_prefix]. by rewrite decide_False.
Qed.

(** The missing-table message for a token with a character outside the
    class is matched by neither pattern, at any position. *)
Lemma missing_table_message_no_match (name : string) :
  is_token name = true → all_letters name = false →
  find missingTableRegex
    (String.list_ascii_of_string (missing_table_message name)) = None
  ∧ find missingColumnRegex
      (String.list_ascii_of_string (missing_table_message name)) = None.
Proof.
  intros Htoken Hletters.
  pose proof (match_here_table_message name Htoken Hletters) as Hhere.
  apply is_token_spec in Htoken as [Hspace Hquote].
  unfold missing_table_message. rewrite !list_ascii_app.
  set (T := String.list_ascii_of_string name) in *.
  set (S := String.list_ascii_of_string " does not exist!") in *.
  cbn [String.list_ascii_of_string app]. split.
  - apply find_None_cons; [exact Hhere|].
    skip_literal.
    apply (find_token (String.list_ascii_of_string "Catalog")
             (String.list_ascii_of_string "Error: Table with name ")).
    + intros j Hj. small_index j Hj.
    + reflexivity.
    + done.
  - skip_literal.
    apply (find_token (String.list_ascii_of_string "Binder")
             (String.list_ascii_of_string "Error: Table " ++ dquote)).
    + intros j Hj. small_index j Hj.
    + reflexivity.
    + done.
Qed.

Lemma quote_chars : String.list_ascii_of_string quote = dquote.
Proof. reflexivity. Qed.

(** A repetition over the characters of a name that has one outside the
    class fails when the rest of the pattern needs a character [q] that
    the name does not contain. *)
Lemma try_lengths_bad_name {R} cls q (name s : list ascii)
    (k : list ascii → list ascii → option R) :
  q ∉ name →
  (∃ r c rest, name = r ++ c :: rest ∧ Forall (λ c, cls c = true) r ∧
     cls c = false) →
  (∀ m h t, h ≠ q → k m (h :: t) = None) →
  try_lengths (run_length cls (name ++ s)) (name ++ s) k = None.
Proof.
  intros Hq (r & c & rest & -> & Hr & Hc) Hk. rewrite <- app_assoc.
  change ((c :: rest) ++ s) with (c :: (rest ++ s)).
  apply try_lengths_stop; [done..| |].
  - intros j Hj. destruct (drop j r) as [|h t] eqn:Hd.
    + apply (f_equal length) in Hd. rewrite length_drop in Hd. simpl in Hd. lia.
    + apply Hk. intros ->. apply Hq, elem_of_app. left.
      apply (subseteq_drop j r). rewrite Hd. left.
  - apply Hk. intros ->. apply Hq, elem_of_app. right. left.
Qed.

(** Over a name inside the class, the repetition stops where the name
    ends, and only the whole name can be followed by [q]. *)
Lemma try_lengths_good_name {R} cls q (name s : list ascii)
    (k : list ascii → list ascii → option R) :
  q ∉ name → cls q = false → Forall (λ c, cls c = true) name →
  (∀ m h t, h ≠ q → k m (h :: t) = None) →
  k name (q :: s) = None →
  try_lengths (run_length cls (name ++ q :: s)) (name ++ q :: s) k = None.
Proof.
  intros Hq Hcq Hname Hk Hfull. apply try_lengths_stop; [done..| |done].
  intros j Hj. destruct (drop j name) as [|h t] eqn:Hd.
  - apply (f_equal length) in Hd. rewrite length_drop in Hd. simpl in Hd. lia.
  - apply Hk. intros ->. apply Hq.
    apply (subseteq_drop j name). rewrite Hd. left.
Qed.

Lemma match_here_Lit_head q lit re h t :
  h ≠ q → match_here (Lit (q :: lit) :: re) (h :: t) = None.
Proof. intros Hh. cbn [match_here strip_prefix]. by rewrite decide_False. Qed.

Lemma match_here_column_message (table column : string) :
  is_token table = true → is_token column = true →
  all_letters table && all_letters column = false →
  match_here missingColumnRegex
    ((String.list_ascii_of_string "Binder Error: Table " ++ dquote)
       ++ String.list_ascii_of_string table
       ++ (dquote ++ String.list_ascii_of_string
                       " does not have a column with name " ++ dquote)
       ++ String.list_ascii_of_string column ++ dquote) = None.
Proof.
  intros [_ Htq]%is_token_spec [_ Hcq]%is_token_spec Hletters.
  unfold missingColumnRegex. rewrite match_here_Lit_app.
  set (TB := String.list_ascii_of_string table) in *.
  set (CL := String.list_ascii_of_string column) in *.
  set (H := String.list_ascii_of_string " does not have a column with name ").
  change (dquote ++ H ++ dquote) with (ascii_of_nat 34 :: (H ++ dquote)).
  change (match_here (Plus ?cls :: ?re) ?s)
    with (try_lengths (run_length cls s) s (λ _ rest, match_here re rest)).
  destruct (all_letters table) eqn:Htable.
  - simpl in Hletters.
    change ((ascii_of_nat 34 :: (H ++ dquote)) ++ CL ++ dquote)
      with (ascii_of_nat 34 :: ((H ++ dquote) ++ CL ++ dquote)).
    apply try_lengths_good_name; [done|reflexivity|by apply all_letters_Forall| |].
    + intros m h t Hh. by apply match_here_Lit_head.
    + change (ascii_of_nat 34 :: ((H ++ dquote) ++ CL ++ dquote))
        with ((ascii_of_nat 34 :: (H ++ dquote)) ++ CL ++ dquote).
      rewrite match_here_Lit_app.
      cbv beta iota delta [match_here]. fold match_here.
      apply (try_lengths_bad_name _ (ascii_of_nat 34)); [done| |].
      * by apply not_all_letters_split.
      * intros m h t Hh. cbn [strip_prefix dquote]. by rewrite decide_False.
  - apply (try_lengths_bad_name _ (ascii_of_nat 34)); [done| |].
    + by apply not_all_letters_split.
    + intros m h t Hh. by apply match_here_Lit_head.
Qed.

Lemma missing_column_message_no_match (table column : string) :
  is_token table = true → is_token column = true →
  all_letters table && all_letters column = false →
  find missingTableRegex
    (String.list_ascii_of_string (missing_column_message table column)) = None
  ∧ find missingColumnRegex
      (String.list_ascii_of_string (missing_column_message table column)) = None.
Proof.
  intros Htable Hcolumn Hletters.
  pose proof (match_here_column_message _ _ Htable Hcolumn Hletters) as Hhere.
  apply is_token_spec in Htable as [Ht32 _].
  apply is_token_spec in Hcolumn as [Hc32 _].
  unfold missing_column_message. rewrite !list_ascii_app, quote_chars.
  set (TB := String.list_ascii_of_string table) in *.
  set (CL := String.list_ascii_of_string column) in *.
  rewrite <- !app_assoc in Hhere.
  cbn [String.list_ascii_of_string app dquote] in *. split.
  - skip_literal.
    apply (find_token (String.list_ascii_of_string "Catalog")
             (String.list_ascii_of_string "Error: Table with name "));
      [intros j Hj; small_index j Hj| |done].
    skip_literal.
    apply (find_token (String.list_ascii_of_string "Catalog")
             (String.list_ascii_of_string "Error: Table with name "));
      [intros j Hj; small_index j Hj|reflexivity|done].
  - apply find_None_cons; [exact Hhere|].
    skip_literal.
    apply (find_token (String.list_ascii_of_string "Binder")
             (String.list_ascii_of_string "Error: Table " ++ dquote));
      [intros j Hj; small_index j Hj| |done].
    skip_literal.
    apply (find_token (String.list_ascii_of_string "Binder")
             (String.list_ascii_of_string "Error: Table " ++ dquote));
      [intros j Hj; small_index j Hj|reflexivity|done].
Qed.

Lemma MatchString_false re text :
  find re (String.list_ascii_of_string text) = None → MatchString re text = false.
Proof.
  intros H. unfold MatchString. rewrite H. apply bool_decide_eq_false.
  by intros [? ?].
Qed.

(** C10, as the code has it: a pattern matches only where the text contains
    its message for names made of ASCII letters and underscores; and when
    the engine error is the missing-table or the missing-column message for
    names written without a space and without a double quote, one of which
    has a character outside that class, neither pattern matches and the
    handler returns the error wrapped, without any engine call: no corrective
    DDL is run. *)
Theorem other_names_not_recovered (E : Env) (w : World E)
    (stmt : InsertStatement) (table column : string) :
  is_token table = true → is_token column = true →
  (∀ text, MatchString missingTableRegex text = true →
     ∃ pre name post, plain_name name = true ∧
       text = pre +:+ missing_table_message name +:+ post)
  ∧ (∀ text, MatchString missingColumnRegex text = true →
       ∃ pre table column post,
         plain_name table = true ∧ plain_name column = true ∧
         text = pre +:+ missing_column_message table column +:+ post)
  ∧ (∀ err, all_letters table = false →
       Error err = missing_table_message table →
       MatchString missingTableRegex (Error err) = false
       ∧ MatchString missingColumnRegex (Error err) = false
       ∧ run (handleInsertError stmt (Some err)) w =
           Returned (Some (Errorf_w "inserting values: " err)) w)
  ∧ (∀ err, all_letters table && all_letters column = false →
       Error err = missing_column_message table column →
       MatchString missingTableRegex (Error err) = false
       ∧ MatchString missingColumnRegex (Error err) = false
       ∧ run (handleInsertError stmt (Some err)) w =
           Returned (Some (Errorf_w "inserting values: " err)) w).
Proof.
  intros Htable Hcolumn. split; [|split; [|split]].
  - intros text. apply MatchString_missingTable.
  - intros text Hm.
    destruct (FindStringSubmatch_missingColumn text Hm)
      as (pre & t & c & post & Ht & Hc & Htext & _).
    by exists pre, t, c, post.
  - intros err Hletters Herr.
    destruct (missing_table_message_no_match table Htable Hletters)
      as [Ht%MatchString_false Hc%MatchString_false].
    rewrite <- Herr in Ht, Hc. unfold handleInsertError.
    by rewrite Ht, Hc.
  - intros err Hletters Herr.
    destruct (missing_column_message_no_match table column Htable Hcolumn Hletters)
      as [Ht%MatchString_false Hc%MatchString_false].
    rewrite <- Herr in Ht, Hc. unfold handleInsertError.
    by rewrite Ht, Hc.
Qed.

Lemma other_names_not_recovered_witness :
  run (handleInsertError test_statement
         (Some (errors_New (missing_table_message "tab1e"))))
      (@fresh accepting_engine 0) =
    Returned
      (Some (Errorf_w "inserting values: "
               (errors_New (missing_table_message "tab1e"))))
      (@fresh accepting_engine 0).
Proof.
  destruct (other_names_not_recovered accepting_engine (@fresh accepting_engine 0)
              test_statement "tab1e" "column_2" eq_refl eq_refl)
    as (_ & _ & Htable & _).
  apply (Htable (errors_New (missing_table_message "tab1e")) eq_refl eq_refl).
Defined.

(** C10 as stated fails: the patterns are not anchored, so the
    missing-table message for a name with spaces, colons and an exclamation
    mark is matched when that name contains such a message for a plain
    name; the handler then runs the corrective [CREATE TABLE]. *)
Lemma nested_name_is_recovered :
  all_letters nested_name = false
  ∧ MatchString missingTableRegex (missing_table_message nested_name) = true
  ∧ run (handleInsertError nested_statement
           (Some (errors_New (missing_table_message nested_name))))
        (@fresh accepting_engine 0) =
      Returned None
        {| state := 1 : St accepting_engine; locked := false;
           calls :=
             [CallExec ("CREATE TABLE IF NOT EXISTS " +:+ quote +:+ nested_name
                          +:+ quote +:+ "(column_a INTEGER)") []] |}.
Proof.
  split; [reflexivity|]. split; [reflexivity|]. reflexivity.
Qed.

(** ** Validation on the write path *)

(** C1 fails on the code: [Store.Insert] never calls [Validate], and
    [HandleData], which does, goes on to [Store.Insert] after writing the
    validation error.  A statement without a table name and a statement
    without columns, both rejected by [Validate], each reach the engine as
    an [INSERT]; through [HandleData] the first is answered with status 400
    and the validation message, and the insert is executed all the same. *)
Theorem Insert_skips_validation :
  Validate (Some no_table_statement) =
    Some (errors_New "invalid InsertStatement: missing Table name")
  ∧ Validate (Some no_columns_statement) =
      Some (errors_New "invalid InsertStatement: no Columns")
  ∧ run (Insert 1 no_table_statement) (@fresh accepting_engine 0) =
      Returned None
        {| state := 1 : St accepting_engine; locked := false;
           calls := [CallExec "INSERT INTO  (column_a) VALUES (?)" [int_v 1]] |}
  ∧ run (Insert 1 no_columns_statement) (@fresh accepting_engine 0) =
      Returned None
        {| state := 1 : St accepting_engine; locked := false;
           calls := [CallExec "INSERT INTO test_table () VALUES ()" []] |}
  ∧ run (HandleData 1 "" (Columns no_table_statement))
        (@fresh accepting_engine 0) =
      Returned
        [WriteHeader 400; Write "invalid InsertStatement: missing Table name";
         WriteHeader 200]
        {| state := 1 : St accepting_engine; locked := false;
           calls := [CallExec "INSERT INTO  (column_a) VALUES (?)" [int_v 1]] |}.
Proof. repeat split; reflexivity. Qed.

(** ** The recovery loop *)

Lemma run_Insert_loop_S {E : Env} (w : World E) fuel stmt query values :
  run (Insert_loop (S fuel) stmt query values) w =
    outcome_bind (run (Insert_body stmt query values) w)
      (λ pass w',
         match pass with
         | Some ret => Returned ret w'
         | None => run (Insert_loop fuel stmt query values) w'
         end).
Proof.
  cbn [Insert_loop]. rewrite run_bind.
  by destruct (run (Insert_body stmt query values) w) as [[ret|] w'|w'|w'|w'].
Qed.

(** One pass through the loop body always comes back: with at most two
    engine calls, and without touching the mutex. *)
Lemma run_Insert_body {E : Env} (w : World E) stmt query values :
  ∃ pass w', run (Insert_body stmt query values) w = Returned pass w'
    ∧ locked w' = locked w
    ∧ length (calls w) < length (calls w') ≤ length (calls w) + 2.
Proof.
  unfold Insert_body. rewrite run_bind. simpl.
  destruct (env_exec E (state w) query values) as [st [err|]] eqn:Hexec; simpl.
  - rewrite run_bind. unfold handleInsertError.
    destruct (MatchString missingTableRegex (Error err)).
    + rewrite run_CreateTable. simpl.
      destruct (env_range E st (Columns stmt)) as [st1 kvs].
      destruct (CreateTable_loop kvs []) as [cols|e]; simpl.
      * destruct (env_exec E st1 _ []) as [st2 [e|]]; simpl;
          eexists _, _; (split; [done|]); simpl; rewrite !length_app; simpl;
          (split; [done|lia]).
      * eexists _, _. split; [done|]. simpl. rewrite !length_app. simpl.
        split; [done|lia].
    + destruct (MatchString missingColumnRegex (Error err)).
      * rewrite run_AddColumn. simpl.
        destruct (AddColumnQueryString stmt _) as [ddl|e]; simpl.
        -- destruct (env_exec E st ddl []) as [st2 [e|]]; simpl;
             eexists _, _; (split; [done|]); simpl; rewrite !length_app; simpl;
             (split; [done|lia]).
        -- eexists _, _. split; [done|]. simpl. rewrite !length_app. simpl.
           split; [done|lia].
      * simpl. eexists _, _. split; [done|]. simpl. rewrite !length_app. simpl.
        split; [done|lia].
  - eexists _, _. split; [done|]. simpl. rewrite !length_app. simpl.
    split; [done|lia].
Qed.

(** When every pass that recovers strictly decreases a measure [μ] of the
    engine state, the loop ends within [μ] recoveries. *)
Lemma run_Insert_loop_progress {E : Env} (μ : St E → nat) stmt query values :
  (∀ w1 w2 : World E,
     run (Insert_body stmt query values) w1 = Returned None w2 →
     μ (state w2) < μ (state w1)) →
  ∀ fuel (w : World E), μ (state w) < fuel →
    ∃ ret w', run (Insert_loop fuel stmt query values) w = Returned ret w'
      ∧ locked w' = locked w
      ∧ length (calls w') ≤ length (calls w) + 2 * (μ (state w) + 1).
Proof.
  intros Hprogress. induction fuel as [|fuel IH]; intros w Hfuel; [lia|].
  rewrite run_Insert_loop_S.
  destruct (run_Insert_body w stmt query values)
    as (pass & w1 & Hbody & Hlocked & Hcalls).
  rewrite Hbody. simpl. destruct pass as [ret|].
  - exists ret, w1. split; [done|]. split; [done|]. lia.
  - pose proof (Hprogress _ _ Hbody) as Hμ.
    destruct (IH w1) as (ret & w' & Hloop & Hlocked' & Hcalls'); [lia|].
    exists ret, w'. split; [done|]. split; [congruence|]. lia.
Qed.

Lemma run_bind' {E : Env} {A B} (p : Prog A) (f : A → Prog B) (w : World E) :
  run (bind p f) w = outcome_bind (run p w) (λ a w', run (f a) w').
Proof. apply (run_bind p f w). Qed.

(** [Insert] takes the mutex, builds the statement, runs the loop and
    releases the mutex when the loop has returned. *)
Lemma run_Insert {E : Env} (w : World E) fuel stmt :
  run (Insert fuel stmt) w =
    if locked w then Blocked w
    else
      let '(st, kvs) := env_range E (state w) (Columns stmt) in
      let '(keys, values, placeholders) := Query_loop kvs [] [] [] in
      let query := "INSERT INTO " +:+ Table stmt +:+ " (" +:+ Join keys ", "
                     +:+ ") VALUES (" +:+ Join placeholders ", " +:+ ")" in
      outcome_bind
        (run (Insert_loop fuel stmt query values)
             {| state := st; locked := true; calls := calls w |})
        (λ ret w',
           if locked w'
           then Returned ret {| state := state w'; locked := false;
                                calls := calls w' |}
           else Fault w').
Proof.
  unfold Insert, writeLock_Lock, writeLock_Unlock, InsertStatement_Query.
  rewrite run_bind. simpl (run (Lock _) _). destruct (locked w); [done|].
  simpl outcome_bind.
  destruct (env_range E (state w) (Columns stmt)) as [st kvs].
  destruct (Query_loop kvs [] [] []) as [[keys values] placeholders].
  unfold Prog_bind. rewrite !run_bind'. simpl.
  by destruct (run (Insert_loop fuel stmt _ values) _) as [ret w'|w'|w'|w'].
Qed.

(** C5, as the code has it: the loop has no iteration cap of its own, but
    against an engine on which every pass of the request's loop that
    recovers, that is, the [INSERT] of this request rejected and the
    corrective DDL then accepted, strictly decreases a natural-number
    measure [μ] of the engine state, [Insert] returns, with the mutex
    released, after at most [μ] recoveries, that is, at most
    [2 * (μ + 1)] engine calls.  The condition is on the one statement the
    loop sends, text and values as built before the loop; nothing is asked
    of the engine on other statements. *)
Theorem Insert_terminates_on_progress (E : Env) (μ : St E → nat)
    (stmt : InsertStatement) (w : World E) :
  locked w = false →
  let st := (env_range E (state w) (Columns stmt)).1 in
  let kvs := (env_range E (state w) (Columns stmt)).2 in
  let insert := "INSERT INTO " +:+ Table stmt +:+ " (" +:+ Join kvs.*1 ", "
                  +:+ ") VALUES (" +:+ Join (replicate (length kvs) "?") ", "
                  +:+ ")" in
  (∀ w1 w2 : World E,
     run (Insert_body stmt insert kvs.*2) w1 = Returned None w2 →
     μ (state w2) < μ (state w1)) →
  ∀ fuel, μ st < fuel →
    ∃ ret w', run (Insert fuel stmt) w = Returned ret w'
      ∧ locked w' = false
      ∧ length (calls w') ≤ length (calls w) + 2 * (μ st + 1).
Proof.
  intros Hunlocked st kvs insert Hprogress fuel Hfuel. subst st kvs insert.
  rewrite run_Insert, Hunlocked.
  destruct (env_range E (state w) (Columns stmt)) as [st kvs].
  cbn [fst snd] in Hprogress, Hfuel. cbn [fst]. rewrite Query_loop_spec.
  set (w1 := {| state := st; locked := true; calls := calls w |}).
  destruct (run_Insert_loop_progress μ stmt _ _ Hprogress fuel w1 Hfuel)
    as (ret & w' & Hloop & Hlocked & Hcalls).
  cbv zeta. cbn [app]. rewrite Hloop. cbn [outcome_bind]. rewrite Hlocked.
  eexists _, _. split; [done|]. split; [done|]. exact Hcalls.
Qed.

Lemma run_Insert_body_eq {E : Env} (w : World E) stmt query values :
  run (Insert_body stmt query values) w =
    let '(st, err) := env_exec E (state w) query values in
    let w1 := {| state := st; locked := locked w;
                 calls := calls w ++ [CallExec query values] |} in
    match err with
    | None => Returned (Some None) w1
    | Some e =>
        outcome_bind (run (handleInsertError stmt (Some e)) w1)
          (λ handledErr w2,
             Returned match handledErr with
                      | Some _ => Some handledErr
                      | None => None
                      end w2)
    end.
Proof.
  unfold Insert_body. rewrite run_bind. simpl (run (ExecContext _ _) _).
  destruct (env_exec E (state w) query values) as [st [e|]]; [|done].
  cbn [outcome_bind]. rewrite run_bind.
  by destruct (run (E:=E) (handleInsertError stmt (Some e)) _)
    as [[h|] w2|w2|w2|w2].
Qed.

Lemma handle_missing_table :
  handleInsertError test_statement (Some missing_table_error) =
    CreateTable test_statement.
Proof. reflexivity. Qed.

(** On the stubborn engine every pass of the loop recovers. *)
Lemma stubborn_body (w : World (stubborn_engine missing_table_error)) values :
  run (Insert_body test_statement test_insert values) w =
    Returned None
      {| state := S (S (state w)) : St (stubborn_engine missing_table_error);
         locked := locked w;
         calls := (calls w ++ [CallExec test_insert values])
                    ++ [CallExec test_create []] |}.
Proof.
  rewrite run_Insert_body_eq. cbn [env_exec stubborn_engine].
  change (is_insert test_insert) with true. cbn [fst].
  rewrite handle_missing_table, run_CreateTable.
  cbn [env_range stubborn_engine canonical_order state locked calls].
  change (CreateTable_loop (map_to_list (Columns test_statement)) [])
    with (@inl (list string) error ["column_a INTEGER"; "column_b VARCHAR"]).
  reflexivity.
Qed.

Lemma stubborn_loop fuel (w : World (stubborn_engine missing_table_error)) values :
  is_Returned (run (Insert_loop fuel test_statement test_insert values) w) = false.
Proof.
  revert w. induction fuel as [|fuel IH]; intros w; [done|].
  rewrite run_Insert_loop_S, stubborn_body. simpl. apply IH.
Qed.

Lemma is_Returned_bind {E : Env} {A B} (o : Outcome E A)
    (f : A → World E → Outcome E B) :
  is_Returned (outcome_bind o f) = true → is_Returned o = true.
Proof. by destruct o. Qed.

Lemma run_Insert_test_statement (E : Env) (w : World E) fuel :
  locked w = false →
  env_range E (state w) (Columns test_statement) =
    (state w, map_to_list (Columns test_statement)) →
  is_Returned (run (Insert fuel test_statement) w) = true →
  is_Returned
    (run (Insert_loop fuel test_statement test_insert [int_v 1; string_v "2"])
         {| state := state w; locked := true; calls := calls w |}) = true.
Proof.
  intros Hunlocked Hrange. rewrite run_Insert, Hunlocked, Hrange.
  change (Query_loop (map_to_list (Columns test_statement)) [] [] [])
    with (["column_a"; "column_b"], [int_v 1; string_v "2"], ["?"; "?"]).
  cbn [fst]. apply is_Returned_bind.
Qed.

(** C5 as stated fails: against an engine that keeps answering the insert
    with a missing-table error while accepting the DDL, no number of
    iterations brings [Insert] to a terminal outcome. *)
Lemma stubborn_engine_never_returns :
  ¬ ∃ fuel,
      is_Returned (run (Insert fuel test_statement)
                     (@fresh (stubborn_engine missing_table_error) 0)) = true.
Proof.
  intros [fuel Hret]. apply run_Insert_test_statement in Hret; [|done..].
  by rewrite stubborn_loop in Hret.
Qed.

(** On the catalog engine a pass of the loop for [test_statement] recovers
    only while the table is missing, and creates it. *)
Lemma catalog_progress (w1 w2 : World catalog_engine) :
  run (Insert_body test_statement test_insert [int_v 1; string_v "2"]) w1 =
    Returned None w2 →
  missing_tables (state w2) < missing_tables (state w1).
Proof.
  rewrite run_Insert_body_eq. cbn [env_exec catalog_engine].
  change (has_prefix "CREATE TABLE IF NOT EXISTS test_table(" test_insert)
    with false.
  change (has_prefix "INSERT INTO test_table " test_insert) with true.
  cbv iota. destruct (state w1) eqn:Hst; [done|].
  rewrite handle_missing_table, run_CreateTable.
  cbn [env_range catalog_engine state locked calls].
  change (CreateTable_loop (map_to_list (Columns test_statement)) [])
    with (@inl (list string) error ["column_a INTEGER"; "column_b VARCHAR"]).
  cbn [env_exec catalog_engine].
  change (has_prefix "CREATE TABLE IF NOT EXISTS test_table("
            ("CREATE TABLE IF NOT EXISTS " +:+ Table test_statement
               +:+ "(" +:+ Join ["column_a INTEGER"; "column_b VARCHAR"] ", "
               +:+ ")")) with true.
  cbn [outcome_bind fmap option_fmap option_map]. intros [= <-].
  cbn [state missing_tables]. lia.
Qed.

(** The condition of C5 on an engine that reads its statements: the
    [INSERT] of the request recovers once, by creating the table. *)
Lemma Insert_terminates_on_progress_witness :
  ∃ ret w',
    run (Insert 2 test_statement) (@fresh catalog_engine false) =
      Returned ret w'
    ∧ locked w' = false
    ∧ length (calls w') ≤ 4.
Proof.
  apply (Insert_terminates_on_progress catalog_engine missing_tables
           test_statement (@fresh catalog_engine false) eq_refl).
  - exact catalog_progress.
  - simpl. lia.
Defined.

(** ** The read pass-through *)

Lemma decode_row_snoc cols c vals :
  decode_row (cols ++ [c]) vals =
    <[c := default nil_v (vals !! length cols)]> (decode_row cols vals).
Proof.
  unfold decode_row. rewrite imap_app, foldl_app. simpl.
  by rewrite Nat.add_0_r.
Qed.

(** The row built for [cols] maps a column name to the value scanned at
    the last position where that name occurs. *)
Lemma decode_row_lookup_Some cols vals j c :
  cols !! j = Some c → c ∉ drop (S j) cols →
  decode_row cols vals !! c = Some (default nil_v (vals !! j)).
Proof.
  revert j. induction cols as [|c' cols IH] using rev_ind; intros j Hj Hlater.
  - done.
  - rewrite decode_row_snoc. destruct (decide (j = length cols)) as [->|Hne].
    + rewrite lookup_app_r, Nat.sub_diag in Hj by lia. injection Hj as ->.
      by rewrite lookup_insert_eq.
    + assert (j < length cols) as Hlt.
      { apply lookup_lt_Some in Hj. rewrite length_app in Hj. simpl in Hj. lia. }
      rewrite lookup_app_l in Hj by done.
      rewrite drop_app_le in Hlater by lia.
      rewrite lookup_insert_ne.
      * apply IH; [done|]. intros Hin. apply Hlater, elem_of_app. by left.
      * intros ->. apply Hlater, elem_of_app. right. left.
Qed.

Lemma decode_row_lookup_None cols vals c :
  c ∉ cols → decode_row cols vals !! c = None.
Proof.
  induction cols as [|c' cols IH] using rev_ind; intros Hc; [done|].
  rewrite decode_row_snoc, lookup_insert_ne.
  - apply IH. intros Hin. apply Hc, elem_of_app. by left.
  - intros ->. apply Hc, elem_of_app. right. left.
Qed.

Lemma Scan_loop_all_scanned cols (vals : list (list any)) out :
  Scan_loop cols (inl <$> vals) out = inl (out ++ (decode_row cols <$> vals)).
Proof.
  revert out. induction vals as [|row vals IH]; intros out; simpl.
  - by rewrite app_nil_r.
  - rewrite IH. by rewrite <- app_assoc.
Qed.

Lemma Scan_loop_error cols (vals : list (list any)) err rest out :
  Scan_loop cols ((inl <$> vals) ++ inr err :: rest) out =
    inr (Errorf_w "scanning column: " err).
Proof.
  revert out. induction vals as [|row vals IH]; intros out; simpl; [done|].
  apply IH.
Qed.

(** C8: [Store.Query] first validates the statement: for a nil statement
    and for an empty query text it returns the validation error without
    any engine call.  Otherwise it makes exactly one engine call,
    [QueryContext] with the query text as given, whether or not the write
    lock is held, and wraps an engine error; when the engine answers with
    columns [cols] and every row scans, the result has one mapping per row,
    in order, which sends each column name to the value the engine reported
    for it (for a repeated name, the value at its last position) and has no
    other key; a scan error or a final cursor error is returned wrapped
    instead. *)
Theorem Store_Query_spec (E : Env) (w : World E) (stmt : option QueryStatement) :
  match stmt with
  | None =>
      run (Store_Query stmt) w =
        Returned (inr (errors_New "invalid QueryStatement: nil")) w
  | Some s =>
      if decide (Query s = "") then
        run (Store_Query stmt) w =
          Returned (inr (errors_New "invalid QueryStatement: Query empty")) w
      else
        let '(st, res) := env_query E (state w) (Query s) in
        let w' := {| state := st; locked := locked w;
                     calls := calls w ++ [CallQuery (Query s)] |} in
        match res with
        | inr err =>
            run (Store_Query stmt) w = Returned (inr (Errorf_w "query: " err)) w'
        | inl rows =>
            match rows_Columns rows with
            | inr err =>
                run (Store_Query stmt) w =
                  Returned (inr (Errorf_w "Query response Columns: " err)) w'
            | inl cols =>
                (∀ scanned err rest,
                   rows_Scan rows = (inl <$> scanned) ++ inr err :: rest →
                   run (Store_Query stmt) w =
                     Returned (inr (Errorf_w "scanning column: " err)) w')
                ∧ (∀ scanned err,
                     rows_Scan rows = inl <$> scanned → rows_Err rows = Some err →
                     run (Store_Query stmt) w =
                       Returned (inr (Errorf_w "flushing rows: " err)) w')
                ∧ (∀ scanned,
                     rows_Scan rows = inl <$> scanned → rows_Err rows = None →
                     ∃ out,
                       run (Store_Query stmt) w = Returned (inl out) w'
                       ∧ length out = length scanned
                       ∧ ∀ i row, scanned !! i = Some row →
                           ∃ m, out !! i = Some m
                             ∧ (∀ j c, cols !! j = Some c →
                                  c ∉ drop (S j) cols →
                                  m !! c = Some (default nil_v (row !! j)))
                             ∧ (∀ c, c ∉ cols → m !! c = None))
            end
        end
  end.
Proof.
  destruct stmt as [s|]; [|done]. unfold Store_Query. simpl.
  case_decide as Hq; [done|]. simpl.
  destruct (env_query E (state w) (Query s)) as [st [rows|err]]; [|done].
  simpl. destruct (rows_Columns rows) as [cols|err]; [|done].
  split; [|split].
  - intros scanned err rest ->. by rewrite Scan_loop_error.
  - intros scanned err -> ->. by rewrite Scan_loop_all_scanned.
  - intros scanned -> ->. rewrite Scan_loop_all_scanned. simpl.
    eexists. split; [done|]. split; [by rewrite length_fmap|].
    intros i row Hrow. exists (decode_row cols row).
    split; [by rewrite list_lookup_fmap, Hrow|].
    split; [intros j c; apply decode_row_lookup_Some|].
    intros c. apply decode_row_lookup_None.
Qed.

(** * Concurrent requests *)

(** ** Shapes of the store's programs *)

Lemma engine_only_bind {A B} (p : Prog A) (f : A → Prog B) :
  engine_only p → (∀ a, engine_only (f a)) → engine_only (bind p f).
Proof.
  intros Hp Hf. induction Hp as [r|q args k _ IH|m k _ IH|]; simpl;
    [apply Hf|constructor; apply IH|constructor; apply IH|constructor].
Qed.

Lemma critical_bind {A} (p : Prog A) :
  engine_only p → critical (bind p (λ r, Unlock (Ret r))).
Proof.
  induction 1 as [r|q args k _ IH|m k _ IH|]; simpl; by constructor.
Qed.

Lemma engine_only_CreateTable stmt : engine_only (CreateTable stmt).
Proof.
  unfold CreateTable, CreateTableQueryString. simpl. constructor. intros kvs.
  destruct (CreateTable_loop kvs []) as [cols|err]; simpl; [|constructor].
  constructor. intros [e|]; constructor.
Qed.

Lemma engine_only_AddColumn stmt name : engine_only (AddColumn stmt name).
Proof.
  unfold AddColumn. destruct (AddColumnQueryString stmt name) as [ddl|err];
    simpl; [|constructor].
  constructor. intros [e|]; constructor.
Qed.

Lemma engine_only_handleInsertError stmt err :
  engine_only (handleInsertError stmt err).
Proof.
  unfold handleInsertError. destruct err as [err|]; [|constructor].
  destruct (regexp.MatchString missingTableRegex (Error err));
    [apply engine_only_CreateTable|].
  destruct (regexp.MatchString missingColumnRegex (Error err));
    [apply engine_only_AddColumn|constructor].
Qed.

Lemma engine_only_Insert_body stmt query values :
  engine_only (Insert_body stmt query values).
Proof.
  unfold Insert_body. apply engine_only_bind.
  - constructor. intros e. constructor.
  - intros [err|]; [|constructor]. apply engine_only_bind.
    + apply engine_only_handleInsertError.
    + intros [e|]; constructor.
Qed.

Lemma engine_only_Insert_loop fuel stmt query values :
  engine_only (Insert_loop fuel stmt query values).
Proof.
  induction fuel as [|fuel IH]; [constructor|]. cbn [Insert_loop].
  apply engine_only_bind; [apply engine_only_Insert_body|].
  intros [ret|]; [constructor|apply IH].
Qed.

(** [Insert] takes the mutex first and then runs a critical section. *)
Lemma Insert_waiting fuel stmt : waiting (Insert fuel stmt).
Proof.
  unfold Insert, writeLock_Lock, writeLock_Unlock.
  eexists. split; [reflexivity|]. cbn [bind].
  apply critical_bind. apply engine_only_bind.
  - unfold InsertStatement_Query. constructor. intros kvs.
    destruct (Query_loop kvs [] [] []) as [[keys values] placeholders].
    constructor.
  - intros [[query values] [err|]]; [constructor|apply engine_only_Insert_loop].
Qed.

(** [Store.Query] never touches the mutex. *)
Lemma Store_Query_lockless stmt : lockless (Store_Query stmt).
Proof.
  unfold Store_Query. destruct (QueryStatement_Valid stmt); [constructor|].
  constructor. intros [rows|err]; [|constructor].
  destruct (rows_Columns rows) as [cols|err]; [|constructor].
  destruct (Scan_loop cols (rows_Scan rows) []) as [out|err]; [|constructor].
  destruct (rows_Err rows); constructor.
Qed.

(** ** The invariant of the interleaving semantics *)

Lemma critical_Exec_inv {A} q args (k : option error → Prog A) :
  critical (Exec q args k) → ∀ e, critical (k e).
Proof. by inversion 1. Qed.

Lemma critical_Range_inv {A} m (k : list (string * any) → Prog A) :
  critical (Range m k) → ∀ kvs, critical (k kvs).
Proof. by inversion 1. Qed.

Lemma critical_Unlock_inv {A} (k : Prog A) :
  critical (Unlock k) → finished k.
Proof. inversion 1. by eexists. Qed.

Lemma lockless_Exec_inv {A} q args (k : option error → Prog A) :
  lockless (Exec q args k) → ∀ e, lockless (k e).
Proof. by inversion 1. Qed.

Lemma lockless_Qry_inv {A} q (k : Rows + error → Prog A) :
  lockless (Qry q k) → ∀ r, lockless (k r).
Proof. by inversion 1. Qed.

Lemma lockless_Range_inv {A} m (k : list (string * any) → Prog A) :
  lockless (Range m k) → ∀ kvs, lockless (k kvs).
Proof. by inversion 1. Qed.

Lemma lookup_snoc_inv {A} (l : list A) (x y : A) n :
  (l ++ [x]) !! n = Some y →
  (n < length l ∧ l !! n = Some y) ∨ (n = length l ∧ y = x).
Proof.
  intros H. destruct (decide (n < length l)) as [Hlt|Hge].
  - left. split; [done|]. by rewrite lookup_app_l in H.
  - right. rewrite lookup_app_r in H by lia.
    destruct (n - length l) as [|m] eqn:Hn; simpl in H; [|done].
    split; [lia|congruence].
Qed.

(** A goroutine that is neither waiting nor finished makes an engine call
    and goes on with a program of the same shape. *)
Lemma invariant_call {E : Env} reqs (c : Config E) i g
    (p' : Prog (result g)) (st : St E) cl :
  invariant reqs c → goroutines c !! i = Some g →
  ¬ waiting (code g) → ¬ finished (code g) →
  (critical (code g) → critical p') → (lockless (code g) → lockless p') →
  invariant reqs
    {| goroutines := <[i := {| result := result g; code := p' |}]> (goroutines c);
       writeLock := writeLock c; engine := st;
       history := history c ++ [{| caller := i; holder := writeLock c;
                                   call := cl |}] |}.
Proof.
  intros [Hthreads Hheld Hserial Hlast] Hg Hnw Hnf Hcrit Hless.
  pose proof (Hthreads i g Hg) as Hi.
  assert (writer reqs i → writeLock c = Some i) as Hwriter.
  { intros [stmt Hstmt]. unfold thread_ok in Hi. rewrite Hstmt in Hi.
    destruct Hi as [(? & _)|[(_ & ?)|(? & _)]]; done. }
  split; simpl.
  - intros j g' Hj. destruct (decide (j = i)) as [->|Hne].
    + rewrite list_lookup_insert_eq in Hj by (by eapply lookup_lt_Some).
      apply (inj Some) in Hj. subst g'. unfold thread_ok in *. simpl.
      destruct (reqs !! i) as [[stmt|stmt]|]; [|by apply Hless|done].
      destruct Hi as [(? & _)|[(? & ?)|(? & _)]]; [done| |done].
      right. left. split; [by apply Hcrit|done].
    + rewrite list_lookup_insert_ne in Hj by done.
      pose proof (Hthreads j g' Hj) as Hj'. unfold thread_ok in *. simpl.
      destruct (reqs !! j) as [[stmt|stmt]|]; [|done..].
      destruct Hj' as [(? & ? & Hhist)|[?|?]]; [|by right; left|by right; right].
      left. split; [done|]. split; [done|].
      intros e [He|He]%elem_of_app; [by apply Hhist|].
      apply list_elem_of_singleton in He as ->. simpl. by intros <-.
  - intros e [He|He]%elem_of_app Hw; [by apply Hheld|].
    apply list_elem_of_singleton in He as ->. simpl in *. by apply Hwriter.
  - intros a b d ea eb ed Hlt Ha Hb Hd Hcall Hwa Hwb.
    apply lookup_snoc_inv in Hd as [[Hdl Hd]|[-> ->]].
    + rewrite lookup_app_l in Ha, Hb by lia. by eapply (Hserial a b d).
    + rewrite lookup_app_l in Ha, Hb by lia. simpl in Hcall.
      rewrite Hcall in Hwa |- *.
      eapply (Hlast i a b ea eb); [by apply Hwriter|lia|done..].
  - intros i0 a b ea eb Hlock Hlt Ha Hb Hcall Hw.
    apply lookup_snoc_inv in Hb as [[Hbl Hb]|[-> ->]].
    + rewrite lookup_app_l in Ha by lia. by eapply (Hlast i0 a b).
    + simpl in *. apply Hwriter in Hw. rewrite Hw in Hlock.
      by injection Hlock.
Qed.

(** A goroutine that is neither waiting nor finished takes a step that is
    no engine call and leaves the mutex alone. *)
Lemma invariant_silent {E : Env} reqs (c : Config E) i g
    (p' : Prog (result g)) (st : St E) :
  invariant reqs c → goroutines c !! i = Some g →
  ¬ waiting (code g) → ¬ finished (code g) →
  (critical (code g) → critical p') → (lockless (code g) → lockless p') →
  invariant reqs
    {| goroutines := <[i := {| result := result g; code := p' |}]> (goroutines c);
       writeLock := writeLock c; engine := st; history := history c |}.
Proof.
  intros [Hthreads Hheld Hserial Hlast] Hg Hnw Hnf Hcrit Hless.
  pose proof (Hthreads i g Hg) as Hi.
  split; simpl; [|done..].
  intros j g' Hj. destruct (decide (j = i)) as [->|Hne].
  - rewrite list_lookup_insert_eq in Hj by (by eapply lookup_lt_Some).
    apply (inj Some) in Hj. subst g'. unfold thread_ok in *. simpl.
    destruct (reqs !! i) as [[stmt|stmt]|]; [|by apply Hless|done].
    destruct Hi as [(? & _)|[(? & ?)|(? & _)]]; [done| |done].
    right. left. split; [by apply Hcrit|done].
  - rewrite list_lookup_insert_ne in Hj by done. by apply Hthreads.
Qed.

(** A waiting goroutine takes the free mutex. *)
Lemma invariant_lock {E : Env} reqs (c : Config E) i g (k : Prog (result g)) :
  invariant reqs c → goroutines c !! i = Some g →
  code g = Lock k → writeLock c = None →
  invariant reqs
    {| goroutines := <[i := {| result := result g; code := k |}]> (goroutines c);
       writeLock := Some i; engine := engine c; history := history c |}.
Proof.
  intros [Hthreads Hheld Hserial Hlast] Hg Hcode Hfree.
  pose proof (Hthreads i g Hg) as Hi.
  assert (critical k ∧ ∀ e, e ∈ history c → caller e ≠ i) as [Hk Hfresh].
  { unfold thread_ok in Hi. rewrite Hcode in Hi.
    destruct (reqs !! i) as [[stmt|stmt]|]; [|by inversion Hi|done].
    destruct Hi as [((k' & Hk' & ?) & _ & ?)|[(Hc & _)|((r & ?) & _)]];
      [|by inversion Hc|done].
    injection Hk' as ->. done. }
  split; simpl; [|done..|].
  - intros j g' Hj. destruct (decide (j = i)) as [->|Hne].
    + rewrite list_lookup_insert_eq in Hj by (by eapply lookup_lt_Some).
      apply (inj Some) in Hj. subst g'. unfold thread_ok in *. simpl.
      destruct (reqs !! i) as [[stmt|stmt]|].
      * right. by left.
      * rewrite Hcode in Hi. by inversion Hi.
      * done.
    + rewrite list_lookup_insert_ne in Hj by done.
      pose proof (Hthreads j g' Hj) as Hj'. unfold thread_ok in *. simpl.
      destruct (reqs !! j) as [[stmt|stmt]|]; [|done..].
      destruct Hj' as [(? & ? & ?)|[(_ & Hheldj)|(? & ?)]].
      * left. split; [done|]. split; [|done]. intros [= ->]. done.
      * rewrite Hfree in Hheldj. done.
      * right. right. split; [done|]. intros [= ->]. done.
  - intros i0 a b ea eb [= <-] Hlt Ha Hb Hcall Hw.
    destruct (Hfresh ea); [by eapply list_elem_of_lookup_2|done].
Qed.

(** The goroutine at the end of its critical section releases the mutex. *)
Lemma invariant_unlock {E : Env} reqs (c : Config E) i g (k : Prog (result g)) :
  invariant reqs c → goroutines c !! i = Some g →
  code g = Unlock k →
  invariant reqs
    {| goroutines := <[i := {| result := result g; code := k |}]> (goroutines c);
       writeLock := None; engine := engine c; history := history c |}.
Proof.
  intros [Hthreads Hheld Hserial Hlast] Hg Hcode.
  pose proof (Hthreads i g Hg) as Hi.
  assert (finished k ∧ writeLock c = Some i) as [Hk Hmine].
  { unfold thread_ok in Hi. rewrite Hcode in Hi.
    destruct (reqs !! i) as [[stmt|stmt]|]; [|by inversion Hi|done].
    destruct Hi as [((k' & ? & _) & _)|[(Hc & ?)|((r & ?) & _)]];
      [done| |done].
    split; [by apply critical_Unlock_inv|done]. }
  split; simpl; [|done..|by intros ? ? ? ? ? [=]].
  intros j g' Hj. destruct (decide (j = i)) as [->|Hne].
  - rewrite list_lookup_insert_eq in Hj by (by eapply lookup_lt_Some).
    apply (inj Some) in Hj. subst g'. unfold thread_ok in *. simpl.
    destruct (reqs !! i) as [[stmt|stmt]|].
    + right. right. by split.
    + rewrite Hcode in Hi. by inversion Hi.
    + done.
  - rewrite list_lookup_insert_ne in Hj by done.
    pose proof (Hthreads j g' Hj) as Hj'. unfold thread_ok in *. simpl.
    destruct (reqs !! j) as [[stmt|stmt]|]; [|done..].
    destruct Hj' as [(? & ? & ?)|[(_ & Hheldj)|(? & ?)]].
    + left. by split.
    + rewrite Hmine in Hheldj. injection Hheldj as ->. done.
    + right. right. by split.
Qed.

Lemma invariant_initial {E : Env} fuel reqs (st : St E) :
  invariant reqs (initial fuel reqs st).
Proof.
  split; simpl.
  - intros i g Hg. rewrite list_lookup_fmap in Hg. unfold thread_ok.
    destruct (reqs !! i) as [[stmt|stmt]|]; simpl in Hg; [| |done];
      apply (inj Some) in Hg; subst g; simpl.
    + left. split; [apply Insert_waiting|]. split; [done|].
      intros e He. by apply elem_of_nil in He.
    + apply Store_Query_lockless.
  - intros e He. by apply elem_of_nil in He.
  - intros a b d ea eb ed _ Ha. by rewrite lookup_nil in Ha.
  - intros i a b ea eb [=].
Qed.

Lemma invariant_sched_step {E : Env} reqs (c : Config E) i :
  invariant reqs c → invariant reqs (sched_step i c).
Proof.
  intros Hinv. unfold sched_step.
  destruct (goroutines c !! i) as [g|] eqn:Hg; [|done].
  destruct (code g) as [r|k|k|q args k|q k|m k|] eqn:Hcode; [done| | | | | |done].
  - destruct (writeLock c) eqn:Hlock; [done|]. by apply invariant_lock.
  - destruct (writeLock c) eqn:Hlock; [|done]. by apply invariant_unlock.
  - destruct (env_exec E (engine c) q args) as [st err].
    apply invariant_call; [done..| | | |]; rewrite Hcode.
    + by intros (? & ? & _).
    + by intros (? & ?).
    + intros Hc. apply (critical_Exec_inv _ _ _ Hc).
    + intros Hl. apply (lockless_Exec_inv _ _ _ Hl).
  - destruct (env_query E (engine c) q) as [st res].
    apply invariant_call; [done..| | | |]; rewrite Hcode.
    + by intros (? & ? & _).
    + by intros (? & ?).
    + by inversion 1.
    + intros Hl. apply (lockless_Qry_inv _ _ Hl).
  - destruct (env_range E (engine c) m) as [st kvs].
    apply invariant_silent; [done..| | | |]; rewrite Hcode.
    + by intros (? & ? & _).
    + by intros (? & ?).
    + intros Hc. apply (critical_Range_inv _ _ Hc).
    + intros Hl. apply (lockless_Range_inv _ _ Hl).
Qed.

Lemma invariant_run_schedule {E : Env} reqs sched (c : Config E) :
  invariant reqs c → invariant reqs (run_schedule sched c).
Proof.
  revert c. induction sched as [|i sched IH]; intros c Hinv; [done|].
  simpl. apply IH. by apply invariant_sched_step.
Qed.

(** C9: in every configuration that a schedule of goroutines can reach from
    the start, (1) every engine call of an insert was made while that
    insert held [writeLock]; (2) an insert is either still waiting for the
    mutex, having made no engine call, or inside its critical section and
    holding the mutex, or has returned and does not hold it, so the mutex is
    taken before the first engine call and released only once the outcome
    is fixed; and (3) between two engine calls of one insert there is no
    engine call of another insert.  Queries take no part in this: they run
    without the mutex. *)
Theorem writes_are_serialized (E : Env) (fuel : nat) (reqs : list Request)
    (st : St E) (sched : list nat) :
  let c := run_schedule sched (initial fuel reqs st) in
  (∀ e, e ∈ history c → writer reqs (caller e) → holder e = Some (caller e))
  ∧ (∀ i g, writer reqs i → goroutines c !! i = Some g →
       (waiting (code g) ∧ writeLock c ≠ Some i
          ∧ ∀ e, e ∈ history c → caller e ≠ i)
       ∨ (critical (code g) ∧ writeLock c = Some i)
       ∨ (finished (code g) ∧ writeLock c ≠ Some i))
  ∧ (∀ a b d ea eb ed,
       a < b < d →
       history c !! a = Some ea → history c !! b = Some eb →
       history c !! d = Some ed →
       caller ea = caller ed →
       writer reqs (caller ea) → writer reqs (caller eb) →
       caller eb = caller ea).
Proof.
  intros c.
  destruct (invariant_run_schedule reqs sched (initial fuel reqs st)
              (invariant_initial fuel reqs st))
    as [Hthreads Hheld Hserial _].
  split; [exact Hheld|]. split; [|exact Hserial].
  intros i g [stmt Hstmt] Hg. pose proof (Hthreads i g Hg) as Hi.
  unfold thread_ok in Hi. by rewrite Hstmt in Hi.
Qed.

(** Two inserts and a query against an engine that rejects the first insert
    attempt: goroutine 1 is scheduled again and again while goroutine 0
    recovers, and gets through only after goroutine 0 has released the
    mutex; the query runs in between. *)
Example two_inserts_and_a_query :
  let c := run_schedule [0; 1; 0; 1; 0; 2; 1; 0; 0; 1; 0; 0; 1; 1; 1; 1]
             (@initial (countdown_engine missing_table_error) 3
                [InsertRequest test_statement; InsertRequest test_statement;
                 QueryRequest (Some query_one)] 1) in
  history c =
    [ {| caller := 0; holder := Some 0;
         call := CallExec test_insert [int_v 1; string_v "2"] |};
      {| caller := 2; holder := Some 0; call := CallQuery "select 1" |};
      {| caller := 0; holder := Some 0; call := CallExec test_create [] |};
      {| caller := 0; holder := Some 0;
         call := CallExec test_insert [int_v 1; string_v "2"] |};
      {| caller := 1; holder := Some 1;
         call := CallExec test_insert [int_v 1; string_v "2"] |} ]
  ∧ writeLock c = None.
Proof. vm_compute. split; reflexivity. Qed.


(** * Further properties of the store *)

(** ** Data types *)

(** [INVALID] is the one data type that is not valid, it is the one data
    type without a DB name, and distinct data types have distinct DB
    names. *)
Theorem DataType_names (k k' : DataType) :
  (Valid k = false ↔ k = INVALID)
  ∧ (Valid k = true ↔ DBType k ≠ "")
  ∧ (DBType k = DBType k' → k = k').
Proof.
  split; [|split].
  - unfold Valid. rewrite bool_decide_eq_false. split; [|by intros -> ?].
    intros Hk. by destruct (decide (k = INVALID)).
  - by destruct k.
  - by destruct k, k'.
Qed.

(** ** Validation *)

(** [Validate] accepts exactly the statements that are not nil, name a
    table and have at least one column; when the table name is missing, that
    is the error reported, whatever the columns. *)
Theorem Validate_accepts (s : option InsertStatement) :
  (Validate s = None ↔
   ∃ stmt, s = Some stmt ∧ Table stmt ≠ "" ∧ Columns stmt ≠ ∅)
  ∧ (∀ stmt, s = Some stmt → Table stmt = "" →
       Validate s =
         Some (errors_New "invalid InsertStatement: missing Table name")).
Proof.
  split.
  - destruct s as [stmt|]; simpl.
    + case_decide as Ht; [|case_decide as Hc]; split; try done.
      * intros (stmt' & [= <-] & Ht' & _). done.
      * intros (stmt' & [= <-] & _ & Hc'). by apply map_size_empty_iff in Hc.
      * intros _. exists stmt. split; [done|]. split; [done|].
        intros Hc'. apply Hc. by rewrite Hc', map_size_empty.
    + split; [done|]. by intros (? & ? & _).
  - intros stmt -> Ht. simpl. by rewrite decide_True.
Qed.


(** ** Builders *)

(** A column gets the same definition whether it is created with the table
    or added later: when the create-table builder succeeds, the add-column
    builder succeeds for each column of the statement, and its
    [ALTER TABLE] ends with one of the definitions the [CREATE TABLE]
    lists. *)
Theorem AddColumn_agrees_with_CreateTable (s : InsertStatement)
    (kvs : list (string * any)) (cols : list string) (name : string) (v : any) :
  kvs ≡ₚ map_to_list (Columns s) →
  CreateTable_loop kvs [] = inl cols →
  Columns s !! name = Some v →
  ∃ def, def ∈ cols ∧
    AddColumnQueryString s name =
      inl ("ALTER TABLE " +:+ Table s +:+ " ADD COLUMN " +:+ def).
Proof.
  intros Hperm Hloop Hname.
  assert (Forall (λ kv, NewDataType kv.2 ≠ INVALID) kvs) as Hvalid.
  { apply Forall_forall. intros [k x] Hin Hx. simpl in Hx.
    destruct (CreateTable_loop_invalid kvs []) as (k' & x' & _ & _ & Herr).
    - apply Exists_exists. by exists (k, x).
    - congruence. }
  rewrite CreateTable_loop_valid in Hloop by done. injection Hloop as <-.
  assert ((name, v) ∈ kvs) as Hin
    by by apply (iteration_order_lookup _ _ _ _ Hperm).
  exists (name +:+ " " +:+ DBType (NewDataType v)). split.
  - simpl. unfold column_defs. apply list_elem_of_fmap. by exists (name, v).
  - unfold AddColumnQueryString. rewrite Hname.
    rewrite Forall_forall in Hvalid. specialize (Hvalid _ Hin). simpl in Hvalid.
    unfold Valid. by rewrite bool_decide_eq_true_2.
Qed.

Lemma AddColumn_agrees_with_CreateTable_witness :
  ∃ def, def ∈ ["column_a INTEGER"; "column_b VARCHAR"] ∧
    AddColumnQueryString test_statement "column_b" =
      inl ("ALTER TABLE " +:+ Table test_statement +:+ " ADD COLUMN " +:+ def).
Proof.
  apply (AddColumn_agrees_with_CreateTable test_statement
           (map_to_list (Columns test_statement)) _ "column_b" (string_v "2"));
    reflexivity.
Defined.

(** ** Rows *)

(** A decoded row has exactly the column names as its keys, so one entry
    per column when the names are distinct and fewer when a name repeats. *)
Theorem decode_row_keys (cols : list string) (vals : list any) :
  dom (decode_row cols vals) = list_to_set cols
  ∧ size (decode_row cols vals) ≤ length cols
  ∧ (NoDup cols → size (decode_row cols vals) = length cols).
Proof.
  assert (dom (decode_row cols vals) = list_to_set cols) as Hdom.
  { induction cols as [|c cols IH] using rev_ind; [done|].
    by rewrite decode_row_snoc, dom_insert_L, IH, list_to_set_snoc_L,
      (comm_L (∪)). }
  split; [done|]. rewrite <- size_dom, Hdom. split.
  - clear Hdom. induction cols as [|c cols IH]; [done|].
    cbn [list_to_set foldr length]. rewrite size_union_alt, size_singleton.
    assert (size (list_to_set cols ∖ {[c]} : gset string)
            ≤ size (list_to_set cols : gset string)) as Hle.
    { apply subseteq_size, subseteq_difference_l. done. }
    lia.
  - intros Hnd. by apply size_list_to_set.
Qed.


(** ** Classifying the engine's own messages *)

(** The first length tried is the whole run. *)
Lemma try_lengths_greedy {R} n s (k : list ascii → list ascii → option R) r :
  k (take (S n) s) (drop (S n) s) = Some r → try_lengths (S n) s k = Some r.
Proof. intros Hk. simpl. by rewrite Hk. Qed.

Lemma find_here re s rest caps :
  match_here re s = Some (rest, caps) →
  find re s = Some (take (length s - length rest) s :: caps).
Proof. intros Hm. destruct s; simpl in *; by rewrite Hm. Qed.

Lemma find_whole re s caps :
  match_here re s = Some ([], caps) → find re s = Some (s :: caps).
Proof.
  intros Hm. rewrite (find_here _ _ _ _ Hm). cbn [length].
  by rewrite Nat.sub_0_r, take_ge.
Qed.

Lemma letter_not_space_or_quote c :
  letter_or_underscore c = true → c ≠ ascii_of_nat 32 ∧ c ≠ ascii_of_nat 34.
Proof. intros Hc. split; intros ->; by vm_compute in Hc. Qed.

Lemma plain_name_is_token (name : string) :
  plain_name name = true → is_token name = true.
Proof.
  intros [_ Hall]%plain_name_spec. unfold is_token.
  apply forallb_forall. intros c Hc%list_elem_of_In.
  rewrite Forall_forall in Hall.
  destruct (letter_not_space_or_quote c (Hall c Hc)) as [H32 H34].
  by rewrite !bool_decide_eq_false_2.
Qed.

(** A repetition over a name inside the class, followed by a character
    outside it, takes the whole name when the rest of the pattern matches
    from there. *)
Lemma match_here_Plus_name cls re (name : list ascii) c s r :
  name ≠ [] → Forall (λ c, cls c = true) name → cls c = false →
  match_here re (c :: s) = Some r →
  match_here (Plus cls :: re) (name ++ c :: s) = Some r.
Proof.
  intros Hne Hname Hc Hre.
  cbn [match_here]. rewrite run_length_stop by done.
  destruct name as [|a name]; [done|]. cbn [length].
  apply try_lengths_greedy.
  change (S (length name)) with (length (a :: name)).
  by rewrite drop_app_length.
Qed.

Lemma match_here_CapPlus_name cls re (name : list ascii) c s rest caps :
  name ≠ [] → Forall (λ c, cls c = true) name → cls c = false →
  match_here re (c :: s) = Some (rest, caps) →
  match_here (CapPlus cls :: re) (name ++ c :: s) = Some (rest, name :: caps).
Proof.
  intros Hne Hname Hc Hre.
  cbn [match_here]. rewrite run_length_stop by done.
  destruct name as [|a name]; [done|]. cbn [length].
  apply try_lengths_greedy.
  change (S (length name)) with (length (a :: name)).
  by rewrite take_app_length, drop_app_length, Hre.
Qed.

(** At the start of a missing-column message for plain names,
    [missingColumnRegex] matches the message and captures the column. *)
Lemma match_here_missing_column (table column : string) (post : list ascii) :
  plain_name table = true → plain_name column = true →
  match_here missingColumnRegex
    (String.list_ascii_of_string (missing_column_message table column) ++ post) =
    Some (post, [String.list_ascii_of_string column]).
Proof.
  intros [Hne1 Hall1]%plain_name_spec [Hne2 Hall2]%plain_name_spec.
  unfold missing_column_message, missingColumnRegex.
  rewrite !list_ascii_app, quote_chars, <- !app_assoc.
  set (T := String.list_ascii_of_string table) in *.
  set (C := String.list_ascii_of_string column) in *.
  set (H := String.list_ascii_of_string " does not have a column with name ").
  rewrite (app_assoc (String.list_ascii_of_string "Binder Error: Table ")).
  rewrite match_here_Lit_app.
  change (dquote ++ H ++ dquote ++ C ++ dquote ++ post)
    with (ascii_of_nat 34 :: (H ++ dquote ++ C ++ dquote ++ post)).
  apply match_here_Plus_name; [done..|].
  change (ascii_of_nat 34 :: (H ++ dquote ++ C ++ dquote ++ post))
    with ((dquote ++ H ++ dquote) ++ C ++ dquote ++ post).
  rewrite match_here_Lit_app.
  change (C ++ dquote ++ post) with (C ++ ascii_of_nat 34 :: post).
  apply match_here_CapPlus_name; [done..|].
  change (ascii_of_nat 34 :: post) with (dquote ++ post).
  by rewrite match_here_Lit_app.
Qed.

Lemma FindStringSubmatch_missing_column_message (table column : string) :
  plain_name table = true → plain_name column = true →
  FindStringSubmatch missingColumnRegex (missing_column_message table column) =
    [missing_column_message table column; column].
Proof.
  intros Ht Hc. unfold FindStringSubmatch.
  pose proof (match_here_missing_column table column [] Ht Hc) as Hm.
  rewrite app_nil_r in Hm. rewrite (find_whole _ _ _ Hm).
  cbn [fmap list_fmap].
  by rewrite !String.string_of_list_ascii_of_string.
Qed.

(** [missingTableRegex] matches nowhere in a missing-column message for
    names without spaces. *)
Lemma missing_column_message_not_table (table column : string) :
  is_token table = true → is_token column = true →
  find missingTableRegex
    (String.list_ascii_of_string (missing_column_message table column)) = None.
Proof.
  intros [Ht32 _]%is_token_spec [Hc32 _]%is_token_spec.
  unfold missing_column_message. rewrite !list_ascii_app, quote_chars.
  cbn [String.list_ascii_of_string app dquote].
  skip_literal.
  apply (find_token (String.list_ascii_of_string "Catalog")
           (String.list_ascii_of_string "Error: Table with name "));
    [intros j Hj; small_index j Hj| |done].
  skip_literal.
  apply (find_token (String.list_ascii_of_string "Catalog")
           (String.list_ascii_of_string "Error: Table with name "));
    [intros j Hj; small_index j Hj|reflexivity|done].
Qed.

Lemma handle_missing_table_message stmt err table :
  plain_name table = true → Error err = missing_table_message table →
  handleInsertError stmt (Some err) = CreateTable stmt.
Proof.
  intros Ht Herr. unfold handleInsertError. rewrite Herr.
  assert (MatchString missingTableRegex (missing_table_message table) = true)
    as ->; [|done].
  apply MatchString_missingTable. exists "", table, "". split; [done|].
  unfold missing_table_message. simpl.
  by rewrite <- (String.string_of_list_ascii_of_string (_ +:+ "")),
    list_ascii_app, app_nil_r, String.string_of_list_ascii_of_string.
Qed.

Lemma handle_missing_column_message stmt err table column :
  plain_name table = true → plain_name column = true →
  Error err = missing_column_message table column →
  handleInsertError stmt (Some err) = AddColumn stmt column.
Proof.
  intros Ht Hc Herr. unfold handleInsertError. rewrite Herr.
  rewrite FindStringSubmatch_missing_column_message by done.
  rewrite MatchString_false
    by (apply missing_column_message_not_table; by apply plain_name_is_token).
  assert (MatchString missingColumnRegex
            (missing_column_message table column) = true) as ->; [|done].
  unfold MatchString. apply bool_decide_eq_true.
  pose proof (match_here_missing_column table column [] Ht Hc) as Hm.
  rewrite app_nil_r in Hm. rewrite (find_whole _ _ _ Hm). by eexists.
Qed.

(** The classifier reads back the engine's messages: on the missing-table
    message for a plain name the handler runs [CreateTable], and on the
    missing-column message for plain names it runs [AddColumn] for exactly
    the column the message names. *)
Theorem handleInsertError_reads_messages (stmt : InsertStatement)
    (err : error) (table column : string) :
  plain_name table = true → plain_name column = true →
  (Error err = missing_table_message table →
   handleInsertError stmt (Some err) = CreateTable stmt)
  ∧ (Error err = missing_column_message table column →
     FindStringSubmatch missingColumnRegex (Error err) !! 1 = Some column
     ∧ handleInsertError stmt (Some err) = AddColumn stmt column).
Proof.
  intros Ht Hc. split; intros Herr.
  - exact (handle_missing_table_message stmt err table Ht Herr).
  - split; [|exact (handle_missing_column_message stmt err table column
                      Ht Hc Herr)].
    by rewrite Herr, FindStringSubmatch_missing_column_message.
Qed.

Lemma handleInsertError_reads_messages_witness :
  handleInsertError test_statement
    (Some (errors_New (missing_column_message "test_table" "column_b"))) =
    AddColumn test_statement "column_b".
Proof.
  destruct (handleInsertError_reads_messages test_statement
              (errors_New (missing_column_message "test_table" "column_b"))
              "test_table" "column_b" eq_refl eq_refl) as [_ Hcolumn].
  by destruct (Hcolumn eq_refl) as [_ ->].
Defined.


(** ** Reads *)

(** [Store.Query] always returns, whether or not [writeLock] is held, and
    leaves the mutex as it found it; it never calls [ExecContext], and calls
    [QueryContext] once for a valid statement and not at all otherwise. *)
Theorem Store_Query_never_blocks (E : Env) (w : World E)
    (stmt : option QueryStatement) :
  ∃ res w',
    run (Store_Query stmt) w = Returned res w'
    ∧ locked w' = locked w
    ∧ match QueryStatement_Valid stmt with
      | Some err => res = inr err ∧ w' = w
      | None => calls w' = calls w ++ [CallQuery (from_option Query "" stmt)]
      end.
Proof.
  unfold Store_Query. destruct (QueryStatement_Valid stmt) as [err|].
  - by exists (inr err), w.
  - simpl. destruct (env_query E (state w) _) as [st [rows|err]];
      [|by eexists _, _].
    destruct (rows_Columns rows) as [cols|err]; [|by eexists _, _].
    destruct (Scan_loop cols (rows_Scan rows) []) as [out|err];
      [|by eexists _, _].
    destruct (rows_Err rows); by eexists _, _.
Qed.

(** ** The mutex in [Store.Insert] *)

(** A program that only calls the engine neither waits for the mutex nor
    faults on it, and leaves it as it found it. *)
Lemma engine_only_locked {E : Env} {A} (p : Prog A) (w : World E) :
  engine_only p →
  match run p w with
  | Returned _ w' | Unfinished w' => locked w' = locked w
  | Blocked _ | Fault _ => False
  end.
Proof.
  intros Hp. revert w. induction Hp as [r|q args k _ IH|m k _ IH|];
    intros w; simpl; try done.
  - destruct (env_exec E (state w) q args) as [st err].
    exact (IH err {| state := st; locked := locked w;
                     calls := calls w ++ [CallExec q args] |}).
  - destruct (env_range E (state w) m) as [st kvs].
    exact (IH kvs {| state := st; locked := locked w; calls := calls w |}).
Qed.

(** [Store.Insert] called while the mutex is free never waits and never
    unlocks an unlocked mutex: it returns with the mutex released, and for
    as long as its loop runs the mutex stays taken.  Called while the mutex
    is taken, it waits without calling the engine. *)
Theorem Insert_mutex (E : Env) (w : World E) (fuel : nat)
    (stmt : InsertStatement) :
  if locked w then run (Insert fuel stmt) w = Blocked w
  else
    match run (Insert fuel stmt) w with
    | Returned _ w' => locked w' = false
    | Unfinished w' => locked w' = true
    | Blocked _ | Fault _ => False
    end.
Proof.
  rewrite run_Insert. destruct (locked w); [done|].
  destruct (env_range E (state w) (Columns stmt)) as [st kvs].
  destruct (Query_loop kvs [] [] []) as [[keys values] placeholders].
  cbv zeta. set (query := "INSERT INTO " +:+ _).
  pose proof (engine_only_locked
                (Insert_loop fuel stmt query values)
                {| state := st; locked := true; calls := calls w |}
                (engine_only_Insert_loop fuel stmt query values)) as Hloop.
  destruct (run (Insert_loop fuel stmt query values) _) as [ret w'|w'|w'|w'];
    simpl in *; try done.
  by rewrite Hloop.
Qed.

(** ** Inserts, pass by pass *)

Lemma run_Insert_unlocked {E : Env} (w : World E) fuel stmt st kvs :
  locked w = false →
  env_range E (state w) (Columns stmt) = (st, kvs) →
  run (Insert fuel stmt) w =
    outcome_bind
      (run (Insert_loop fuel stmt
              ("INSERT INTO " +:+ Table stmt +:+ " (" +:+ Join kvs.*1 ", "
                 +:+ ") VALUES (" +:+ Join (replicate (length kvs) "?") ", "
                 +:+ ")")
              kvs.*2)
           {| state := st; locked := true; calls := calls w |})
      (λ ret w',
         if locked w'
         then Returned ret {| state := state w'; locked := false;
                              calls := calls w' |}
         else Fault w').
Proof.
  intros Hunlocked Hrange. rewrite run_Insert, Hunlocked, Hrange.
  by rewrite Query_loop_spec.
Qed.

Lemma run_pass_accepted {E : Env} (w : World E) fuel stmt query values st :
  env_exec E (state w) query values = (st, None) →
  run (Insert_loop (S fuel) stmt query values) w =
    Returned None {| state := st; locked := locked w;
                     calls := calls w ++ [CallExec query values] |}.
Proof.
  intros Hexec. by rewrite run_Insert_loop_S, run_Insert_body_eq, Hexec.
Qed.

Lemma run_pass_rejected {E : Env} (w : World E) fuel stmt query values st err :
  env_exec E (state w) query values = (st, Some err) →
  run (Insert_loop (S fuel) stmt query values) w =
    outcome_bind
      (run (handleInsertError stmt (Some err))
           {| state := st; locked := locked w;
              calls := calls w ++ [CallExec query values] |})
      (λ handledErr w',
         match handledErr with
         | Some _ => Returned handledErr w'
         | None => run (Insert_loop fuel stmt query values) w'
         end).
Proof.
  intros Hexec. rewrite run_Insert_loop_S, run_Insert_body_eq, Hexec.
  cbv zeta.
  by destruct (run (E:=E) (handleInsertError stmt (Some err)) _)
    as [[e|] w'|w'|w'|w'].
Qed.

(** When the engine accepts the insert at once, [Insert] returns nil after
    that one call: the built text with the values in the order of the
    listed columns. *)
Theorem Insert_accepted (E : Env) (w : World E) (fuel : nat)
    (stmt : InsertStatement) (st st' : St E) (kvs : list (string * any)) :
  locked w = false →
  env_range E (state w) (Columns stmt) = (st, kvs) →
  let insert := "INSERT INTO " +:+ Table stmt +:+ " (" +:+ Join kvs.*1 ", "
                  +:+ ") VALUES (" +:+ Join (replicate (length kvs) "?") ", "
                  +:+ ")" in
  env_exec E st insert kvs.*2 = (st', None) →
  run (Insert (S fuel) stmt) w =
    Returned None {| state := st'; locked := false;
                     calls := calls w ++ [CallExec insert kvs.*2] |}.
Proof.
  intros Hunlocked Hrange insert Hexec.
  rewrite (run_Insert_unlocked w _ stmt st kvs) by done.
  fold insert. by rewrite (run_pass_accepted _ _ _ _ _ st').
Qed.

Lemma Insert_accepted_witness :
  run (Insert 1 test_statement) (@fresh accepting_engine 0) =
    Returned None
      {| state := 1 : St accepting_engine; locked := false;
         calls := [CallExec test_insert [int_v 1; string_v "2"]] |}.
Proof.
  exact (Insert_accepted accepting_engine (@fresh accepting_engine 0) 0
           test_statement 0 1 (map_to_list (Columns test_statement))
           eq_refl eq_refl eq_refl).
Defined.

(** When the engine rejects the insert because the table is missing and
    then accepts the [CREATE TABLE], [Insert] issues the same insert again,
    with the same text and values; if that is accepted it returns nil, after
    exactly these three calls. *)
Theorem Insert_creates_missing_table (E : Env) (w : World E) (fuel : nat)
    (stmt : InsertStatement) (err : error) (st1 st2 st3 st4 st5 : St E)
    (kvs kvs' : list (string * any)) :
  locked w = false →
  env_range E (state w) (Columns stmt) = (st1, kvs) →
  let insert := "INSERT INTO " +:+ Table stmt +:+ " (" +:+ Join kvs.*1 ", "
                  +:+ ") VALUES (" +:+ Join (replicate (length kvs) "?") ", "
                  +:+ ")" in
  env_exec E st1 insert kvs.*2 = (st2, Some err) →
  MatchString missingTableRegex (Error err) = true →
  env_range E st2 (Columns stmt) = (st3, kvs') →
  Forall (λ kv, NewDataType kv.2 ≠ INVALID) kvs' →
  let create := "CREATE TABLE IF NOT EXISTS " +:+ Table stmt +:+ "("
                  +:+ Join (column_defs kvs') ", " +:+ ")" in
  env_exec E st3 create [] = (st4, None) →
  env_exec E st4 insert kvs.*2 = (st5, None) →
  run (Insert (S (S fuel)) stmt) w =
    Returned None
      {| state := st5; locked := false;
         calls := calls w ++ [CallExec insert kvs.*2; CallExec create [];
                              CallExec insert kvs.*2] |}.
Proof.
  intros Hunlocked Hrange insert Hexec1 Htable Hrange' Hvalid create Hddl Hexec2.
  rewrite (run_Insert_unlocked w _ stmt st1 kvs) by done. fold insert.
  rewrite (run_pass_rejected _ _ _ _ _ st2 err) by done.
  unfold handleInsertError. rewrite Htable, run_CreateTable.
  cbn [state locked calls]. rewrite Hrange', CreateTable_loop_valid by done.
  cbn [app]. fold create. cbv zeta. rewrite Hddl. cbn [outcome_bind fmap option_fmap option_map].
  rewrite (run_pass_accepted _ _ _ _ _ st5) by done.
  cbn [outcome_bind state locked calls]. by rewrite <- !app_assoc.
Qed.

Lemma Insert_creates_missing_table_witness :
  run (Insert 2 test_statement)
      (@fresh (countdown_engine missing_table_error) 1) =
    Returned None
      {| state := 0 : St (countdown_engine missing_table_error);
         locked := false;
         calls := [CallExec test_insert [int_v 1; string_v "2"];
                   CallExec test_create [];
                   CallExec test_insert [int_v 1; string_v "2"]] |}.
Proof.
  refine (Insert_creates_missing_table (countdown_engine missing_table_error)
            (@fresh (countdown_engine missing_table_error) 1) 0
            test_statement missing_table_error 1 0 0 0 0
            (map_to_list (Columns test_statement))
            (map_to_list (Columns test_statement))
            eq_refl eq_refl eq_refl eq_refl eq_refl _ eq_refl eq_refl).
  apply Forall_forall. intros [k v] Hin. simpl.
  apply elem_of_map_to_list in Hin. by eapply test_statement_valid.
Defined.

(** When the engine rejects the insert because a column of the statement
    is missing from the table and then accepts the [ALTER TABLE] for that
    column, [Insert] issues the same insert again; if that is accepted it
    returns nil, after exactly these three calls. *)
Theorem Insert_adds_missing_column (E : Env) (w : World E) (fuel : nat)
    (stmt : InsertStatement) (err : error) (table column : string) (v : any)
    (st1 st2 st3 st4 : St E) (kvs : list (string * any)) :
  locked w = false →
  env_range E (state w) (Columns stmt) = (st1, kvs) →
  let insert := "INSERT INTO " +:+ Table stmt +:+ " (" +:+ Join kvs.*1 ", "
                  +:+ ") VALUES (" +:+ Join (replicate (length kvs) "?") ", "
                  +:+ ")" in
  env_exec E st1 insert kvs.*2 = (st2, Some err) →
  plain_name table = true → plain_name column = true →
  Error err = missing_column_message table column →
  Columns stmt !! column = Some v → NewDataType v ≠ INVALID →
  let alter := "ALTER TABLE " +:+ Table stmt +:+ " ADD COLUMN " +:+ column
                 +:+ " " +:+ DBType (NewDataType v) in
  env_exec E st2 alter [] = (st3, None) →
  env_exec E st3 insert kvs.*2 = (st4, None) →
  run (Insert (S (S fuel)) stmt) w =
    Returned None
      {| state := st4; locked := false;
         calls := calls w ++ [CallExec insert kvs.*2; CallExec alter [];
                              CallExec insert kvs.*2] |}.
Proof.
  intros Hunlocked Hrange insert Hexec1 Ht Hc Herr Hcol Hv alter Hddl Hexec2.
  rewrite (run_Insert_unlocked w _ stmt st1 kvs) by done. fold insert.
  rewrite (run_pass_rejected _ _ _ _ _ st2 err) by done.
  rewrite (handle_missing_column_message stmt err table column) by done.
  rewrite run_AddColumn. unfold AddColumnQueryString. rewrite Hcol.
  unfold Valid. rewrite bool_decide_eq_true_2 by done.
  cbn [negb state locked calls]. fold alter. rewrite Hddl.
  cbn [outcome_bind fmap option_fmap option_map].
  rewrite (run_pass_accepted _ _ _ _ _ st4) by done.
  cbn [outcome_bind state locked calls]. by rewrite <- !app_assoc.
Qed.

Lemma Insert_adds_missing_column_witness :
  run (Insert 2 test_statement)
      (@fresh (countdown_engine missing_column_error) 1) =
    Returned None
      {| state := 0 : St (countdown_engine missing_column_error);
         locked := false;
         calls := [CallExec test_insert [int_v 1; string_v "2"];
                   CallExec "ALTER TABLE test_table ADD COLUMN column_b VARCHAR" [];
                   CallExec test_insert [int_v 1; string_v "2"]] |}.
Proof.
  exact (Insert_adds_missing_column (countdown_engine missing_column_error)
           (@fresh (countdown_engine missing_column_error) 1) 0 test_statement
           missing_column_error "test_table" "column_b" (string_v "2") 1 0 0 0
           (map_to_list (Columns test_statement))
           eq_refl eq_refl eq_refl eq_refl eq_refl eq_refl eq_refl
           ltac:(done) eq_refl eq_refl).
Defined.

(** A recovery that fails ends the insert, and the insert is not tried
    again: after a missing-table error, when a column has no valid type
    [Insert] returns the builder's error without issuing any DDL, and when
    the engine rejects the [CREATE TABLE], [Insert] returns that error
    wrapped. *)
Theorem Insert_failed_recovery (E : Env) (w : World E) (fuel : nat)
    (stmt : InsertStatement) (err : error) (st1 st2 st3 : St E)
    (kvs kvs' : list (string * any)) :
  locked w = false →
  env_range E (state w) (Columns stmt) = (st1, kvs) →
  let insert := "INSERT INTO " +:+ Table stmt +:+ " (" +:+ Join kvs.*1 ", "
                  +:+ ") VALUES (" +:+ Join (replicate (length kvs) "?") ", "
                  +:+ ")" in
  env_exec E st1 insert kvs.*2 = (st2, Some err) →
  MatchString missingTableRegex (Error err) = true →
  env_range E st2 (Columns stmt) = (st3, kvs') →
  match CreateTable_loop kvs' [] with
  | inr builderErr =>
      run (Insert (S fuel) stmt) w =
        Returned (Some builderErr)
          {| state := st3; locked := false;
             calls := calls w ++ [CallExec insert kvs.*2] |}
  | inl cols =>
      let create := "CREATE TABLE IF NOT EXISTS " +:+ Table stmt +:+ "("
                      +:+ Join cols ", " +:+ ")" in
      ∀ st4 ddlErr,
        env_exec E st3 create [] = (st4, Some ddlErr) →
        run (Insert (S fuel) stmt) w =
          Returned (Some (Errorf_w "creating Table: " ddlErr))
            {| state := st4; locked := false;
               calls := calls w ++ [CallExec insert kvs.*2;
                                    CallExec create []] |}
  end.
Proof.
  intros Hunlocked Hrange insert Hexec1 Htable Hrange'.
  rewrite (run_Insert_unlocked w _ stmt st1 kvs) by done. fold insert.
  rewrite (run_pass_rejected _ _ _ _ _ st2 err) by done.
  unfold handleInsertError. rewrite Htable, run_CreateTable.
  cbn [state locked calls]. rewrite Hrange'.
  destruct (CreateTable_loop kvs' []) as [cols|builderErr]; [|done].
  intros st4 ddlErr Hddl. rewrite Hddl.
  cbn [outcome_bind fmap option_fmap option_map state locked calls].
  by rewrite <- !app_assoc.
Qed.

Lemma Insert_failed_recovery_witness :
  run (Insert 1 null_statement)
      (@fresh (countdown_engine missing_table_error) 1) =
    Returned
      (Some (errors_New
               "create Table: invalid data type for column (column_a): <nil>"))
      {| state := 0 : St (countdown_engine missing_table_error);
         locked := false;
         calls := [CallExec "INSERT INTO test_table (column_a) VALUES (?)"
                     [nil_v]] |}.
Proof.
  exact (Insert_failed_recovery (countdown_engine missing_table_error)
           (@fresh (countdown_engine missing_table_error) 1) 0 null_statement
           missing_table_error 1 0 0
           (map_to_list (Columns null_statement))
           (map_to_list (Columns null_statement))
           eq_refl eq_refl eq_refl eq_refl eq_refl).
Defined.

(** ** The data handler *)


(** ** Serializability of concurrent inserts *)

Lemma run_inserts_snoc {E : Env} fuel stmts stmt (w0 w w' : World E) rets ret :
  run_inserts fuel stmts w0 = Some (rets, w) →
  run (Insert fuel stmt) w = Returned ret w' →
  run_inserts fuel (stmts ++ [stmt]) w0 = Some (rets ++ [ret], w').
Proof.
  revert w0 rets. induction stmts as [|s stmts IH]; intros w0 rets;
    cbn [run_inserts app].
  - intros [= <- <-] Hlast. by rewrite Hlast.
  - destruct (run (Insert fuel s) w0) as [r w1|w1|w1|w1]; try by intros [=].
    destruct (run_inserts fuel stmts w1) as [[rs w2]|] eqn:Hrest;
      [|by intros [=]].
    intros [= <- <-] Hlast. by rewrite (IH _ _ Hrest Hlast).
Qed.

Lemma serial_inv_initial {E : Env} fuel stmts0 (st : St E) :
  serial_inv fuel stmts0 (fresh st)
    (initial fuel (InsertRequest <$> stmts0) st).
Proof.
  exists [], [], [], (fresh st).
  split; [cbn [initial goroutines]; by rewrite !length_fmap|].
  repeat split; try constructor.
  intros i stmt Hi _ _. simpl. by rewrite !list_lookup_fmap, Hi.
Qed.

(** A goroutine that has returned, or that waits for a mutex that is taken,
    stays where it is. *)
Lemma sched_step_returned {E : Env} (c : Config E) i ret :
  goroutines c !! i = Some (returned ret) → sched_step i c = c.
Proof. intros Hg. unfold sched_step. by rewrite Hg. Qed.

Lemma sched_step_blocked {E : Env} (c : Config E) i fuel stmt h :
  goroutines c !! i = Some (serve fuel (InsertRequest stmt)) →
  writeLock c = Some h → sched_step i c = c.
Proof.
  intros Hg Hh. unfold sched_step. rewrite Hg. cbn [serve code result].
  destruct (Insert_waiting fuel stmt) as (k & -> & _). by rewrite Hh.
Qed.

Lemma sched_step_absent {E : Env} (c : Config E) i :
  goroutines c !! i = None → sched_step i c = c.
Proof. intros Hg. unfold sched_step. by rewrite Hg. Qed.

Lemma Forall2_elem_of_l {A B} (P : A → B → Prop) l k x :
  Forall2 P l k → x ∈ l → ∃ y, P x y.
Proof.
  intros HP [n Hn]%list_elem_of_lookup_1.
  destruct (Forall2_lookup_l _ _ _ _ _ HP Hn) as (y & _ & Hy). by exists y.
Qed.

Lemma Forall2_impl_elem_of {A B} (P Q : A → B → Prop) l k :
  Forall2 P l k → (∀ x y, x ∈ l → P x y → Q x y) → Forall2 Q l k.
Proof.
  induction 1 as [|x y l k HP _ IH]; intros HPQ; constructor.
  - apply HPQ; [left|done].
  - apply IH. intros x' y' Hx'. apply HPQ. by right.
Qed.

Lemma serial_inv_step {E : Env} fuel stmts0 (w0 : World E) (c : Config E) i :
  serial_inv fuel stmts0 w0 c → serial_inv fuel stmts0 w0 (sched_step i c).
Proof.
  intros Hinv.
  destruct (goroutines c !! i) as [g|] eqn:Hg;
    [|by rewrite sched_step_absent].
  pose proof Hinv as (order & stmts & rets & w_done & Hlen & Hnd & Hstmts
                        & Hrun & Hfree & Hrets & Hidle & Hlock).
  destruct (decide (i ∈ order)) as [Hin|Hiorder].
  { destruct (Forall2_elem_of_l _ _ _ _ Hrets Hin) as [ret Hret].
    by rewrite (sched_step_returned c i ret). }
  assert (∃ stmt, stmts0 !! i = Some stmt) as [stmt Hstmt].
  { apply lookup_lt_is_Some. rewrite <- Hlen. by eapply lookup_lt_Some. }
  destruct (writeLock c) as [h|] eqn:Hh.
  - (* the mutex is held by [h] *)
    destruct (decide (i = h)) as [->|Hih];
      [|rewrite (sched_step_blocked c i fuel stmt h); [done| |done];
        apply Hidle; [done..|]; by intros [= ->]].
    destruct Hlock as (_ & stmt' & p & Hstmt' & Hp & Hcrit & Hsim).
    assert (stmt' = stmt) as -> by congruence. clear Hstmt'.
    unfold sched_step. rewrite Hp, Hh. cbn [code result].
    unfold world_of in Hsim. rewrite Hh in Hsim.
    destruct Hcrit as [r|q args k Hk|m k Hk|].
    + (* unlock: the insert has returned *)
      cbn [run locked state calls] in Hsim.
      exists (order ++ [h]), (stmts ++ [stmt]), (rets ++ [r]),
        {| state := engine c; locked := false; calls := call <$> history c |}.
      cbn [goroutines writeLock].
      split; [by rewrite length_insert|].
      split.
      { apply NoDup_app. split; [done|]. split; [|apply NoDup_singleton].
        by intros x Hx ->%list_elem_of_singleton. }
      split; [apply Forall2_app; [done|by constructor]|].
      split; [by eapply run_inserts_snoc|]. split; [done|].
      split.
      { apply Forall2_app.
        - eapply Forall2_impl_elem_of; [exact Hrets|]. intros j ret Hjin Hj.
          simpl in Hj. rewrite list_lookup_insert_ne; [done|]. by intros ->.
        - constructor; [|constructor].
          rewrite list_lookup_insert_eq; [done|]. by eapply lookup_lt_Some. }
      split; [|done].
      intros j s Hj Hjorder _.
      assert (j ≠ h) as Hjh.
      { intros ->. apply Hjorder, elem_of_app. right. left. }
      rewrite list_lookup_insert_ne by done. apply Hidle; [done| |].
      * intros Hin. apply Hjorder, elem_of_app. by left.
      * by intros [= ->].
    + (* an engine call inside the critical section *)
      destruct (env_exec E (engine c) q args) as [st err] eqn:Hexec.
      exists order, stmts, rets, w_done. cbn [goroutines writeLock].
      split; [by rewrite length_insert|].
      split; [done|]. split; [done|]. split; [done|]. split; [done|].
      split.
      { eapply Forall2_impl_elem_of; [exact Hrets|]. intros j ret Hjin Hj.
        simpl in Hj. rewrite list_lookup_insert_ne; [done|]. by intros ->. }
      split.
      { intros j s Hj Hjorder Hjh.
        rewrite list_lookup_insert_ne; [|by intros ->]. by apply Hidle. }
      split; [done|]. exists stmt, (k err). split; [done|]. split.
      { rewrite list_lookup_insert_eq; [done|]. by eapply lookup_lt_Some. }
      split; [apply Hk|]. rewrite Hsim. unfold world_of.
      cbn [run state locked calls engine history writeLock].
      rewrite Hexec. by rewrite fmap_app.
    + (* a range inside the critical section *)
      destruct (env_range E (engine c) m) as [st kvs] eqn:Hrange.
      exists order, stmts, rets, w_done. cbn [goroutines writeLock].
      split; [by rewrite length_insert|].
      split; [done|]. split; [done|]. split; [done|]. split; [done|].
      split.
      { eapply Forall2_impl_elem_of; [exact Hrets|]. intros j ret Hjin Hj.
        simpl in Hj. rewrite list_lookup_insert_ne; [done|]. by intros ->. }
      split.
      { intros j s Hj Hjorder Hjh.
        rewrite list_lookup_insert_ne; [|by intros ->]. by apply Hidle. }
      split; [done|]. exists stmt, (k kvs). split; [done|]. split.
      { rewrite list_lookup_insert_eq; [done|]. by eapply lookup_lt_Some. }
      split; [apply Hk|]. rewrite Hsim. unfold world_of.
      cbn [run state locked calls engine history writeLock].
      by rewrite Hrange.
    + (* out of fuel: stays *)
      done.
  - (* the mutex is free: goroutine [i] has not started and takes it *)
    assert (goroutines c !! i = Some (serve fuel (InsertRequest stmt))) as Hi
      by (by apply Hidle).
    unfold sched_step. rewrite Hi, Hh. cbn [serve code result].
    destruct (Insert_waiting fuel stmt) as (k & Hk & Hcrit).
    rewrite Hk.
    exists order, stmts, rets, w_done. cbn [goroutines writeLock].
    split; [by rewrite length_insert|].
    split; [done|]. split; [done|]. split; [done|]. split; [done|].
    split.
    { eapply Forall2_impl_elem_of; [exact Hrets|]. intros j ret Hjin Hj.
      simpl in Hj. rewrite list_lookup_insert_ne; [done|]. by intros ->. }
    split.
    { intros j s Hj Hjorder Hjh.
      rewrite list_lookup_insert_ne; [|by intros ->]. by apply Hidle. }
    split; [done|]. exists stmt, k. split; [done|]. split.
    { rewrite list_lookup_insert_eq; [done|]. by eapply lookup_lt_Some. }
    split; [done|]. rewrite Hk, <- Hlock. unfold world_of.
    cbn [run state locked calls engine history writeLock]. by rewrite Hh.
Qed.

Lemma serial_inv_run_schedule {E : Env} fuel stmts0 (w0 : World E) sched c :
  serial_inv fuel stmts0 w0 c →
  serial_inv fuel stmts0 w0 (run_schedule sched c).
Proof.
  revert c. induction sched as [|i sched IH]; intros c Hinv; [done|].
  simpl. apply IH. by apply serial_inv_step.
Qed.

(** Concurrent inserts are serializable.  Whatever the schedule, the
    inserts that have returned can be put in an order, the order in which
    they took the mutex, such that each has returned what [store.Insert]
    returns when the statements are inserted one after another in that
    order; and whenever the mutex is free, the engine is in the state, and
    has received the calls, of that sequential run. *)
Theorem inserts_are_serializable (E : Env) (fuel : nat)
    (stmts0 : list InsertStatement) (st : St E) (sched : list nat) :
  let c := run_schedule sched (initial fuel (InsertRequest <$> stmts0) st) in
  ∃ (order : list nat) (stmts : list InsertStatement)
    (rets : list (option error)) (w_done : World E),
    NoDup order
    ∧ Forall2 (λ i stmt, stmts0 !! i = Some stmt) order stmts
    ∧ run_inserts fuel stmts (fresh st) = Some (rets, w_done)
    ∧ Forall2 (λ i ret, goroutines c !! i = Some (returned ret)) order rets
    ∧ (∀ i ret, goroutines c !! i = Some (returned ret) → i ∈ order)
    ∧ (writeLock c = None →
       engine c = state w_done ∧ call <$> history c = calls w_done).
Proof.
  intros c.
  destruct (serial_inv_run_schedule fuel stmts0 (fresh st) sched _
              (serial_inv_initial fuel stmts0 st))
    as (order & stmts & rets & w_done & Hlen & Hnd & Hstmts & Hrun & _
          & Hrets & Hidle & Hlock).
  fold c in Hlen, Hrets, Hidle, Hlock.
  exists order, stmts, rets, w_done. do 4 (split; [done|]). split.
  - intros i ret Hi. destruct (decide (i ∈ order)) as [|Hiorder]; [done|].
    exfalso.
    assert (∃ stmt, stmts0 !! i = Some stmt) as [stmt Hstmt].
    { apply lookup_lt_is_Some. rewrite <- Hlen. by eapply lookup_lt_Some. }
    set (is_ret := λ g : Goroutine,
           match code g with Ret _ => true | _ => false end).
    assert (is_ret (returned ret) = true) as Htrue by done.
    destruct (decide (writeLock c = Some i)) as [Hheld|Hnot].
    + rewrite Hheld in Hlock.
      destruct Hlock as (_ & stmt' & p & _ & Hp & Hcrit & _).
      rewrite Hp in Hi. apply (inj Some) in Hi. rewrite <- Hi in Htrue.
      by destruct Hcrit.
    + rewrite (Hidle i stmt Hstmt Hiorder Hnot) in Hi.
      apply (inj Some) in Hi. rewrite <- Hi in Htrue.
      unfold is_ret in Htrue. cbn [serve code] in Htrue.
      by destruct (Insert_waiting fuel stmt) as (k & Hk & _); rewrite Hk in Htrue.
  - intros Hfree. rewrite Hfree in Hlock. by rewrite <- Hlock.
Qed.

(** Two inserts against an engine that rejects the first attempt as a
    missing table, under a schedule that lets the second goroutine take the
    mutex first: it is the one that meets the missing table, and the
    outcome is that of inserting statement 1 and then statement 0. *)
Example second_insert_first :
  let c := run_schedule [1; 0; 1; 1; 0; 1; 1; 1; 0; 0; 0; 0]
             (@initial (countdown_engine missing_table_error) 3
                (InsertRequest <$> [test_statement; null_statement]) 1) in
  goroutines c =
    [returned None;
     returned
       (Some (errors_New
                "create Table: invalid data type for column (column_a): <nil>"))]
  ∧ (caller <$> history c) = [1; 0]
  ∧ run_inserts 3 [null_statement; test_statement]
      (@fresh (countdown_engine missing_table_error) 1) =
      Some
        ([Some (errors_New
                  "create Table: invalid data type for column (column_a): <nil>");
          None],
         {| state := 0 : St (countdown_engine missing_table_error);
            locked := false;
            calls := [CallExec "INSERT INTO test_table (column_a) VALUES (?)"
                        [nil_v];
                      CallExec test_insert [int_v 1; string_v "2"]] |}).
Proof. vm_compute. split; [reflexivity|split; reflexivity]. Qed.

(** ** Queries among the goroutines *)

(** A query is never held up by the mutex: whoever holds [writeLock], the
    goroutine of a query has returned after its first step, and it leaves
    the mutex as it is. *)
Theorem query_goroutine_returns (E : Env) (c : Config E) (i fuel : nat)
    (stmt : option QueryStatement) :
  goroutines c !! i = Some (serve fuel (QueryRequest stmt)) →
  writeLock (sched_step i c) = writeLock c
  ∧ ∃ res, goroutines (sched_step i c) !! i =
             Some {| result := list (gmap string any) + error;
                     code := Ret res |}.
Proof.
  intros Hg. assert (i < length (goroutines c)) as Hi
    by by eapply lookup_lt_Some.
  destruct (QueryStatement_Valid stmt) as [err|] eqn:Hvalid.
  - assert (Store_Query stmt = Ret (inr err)) as Hcode
      by (unfold Store_Query; by rewrite Hvalid).
    unfold sched_step. rewrite Hg. cbn [serve code result]. rewrite Hcode.
    split; [done|]. exists (inr err). rewrite Hg. cbn [serve].
    by rewrite Hcode.
  - unfold sched_step. rewrite Hg. cbn [serve code result].
    unfold Store_Query. rewrite Hvalid. simpl.
    destruct (env_query E (engine c) _) as [st [rows|err]]; simpl;
      (split; [done|]); rewrite list_lookup_insert_eq by done;
      [|by eexists].
    destruct (rows_Columns rows) as [cols|err]; [|by eexists].
    destruct (Scan_loop cols (rows_Scan rows) []) as [out|err]; [|by eexists].
    destruct (rows_Err rows); by eexists.
Qed.

Lemma query_goroutine_returns_witness :
  ∃ res,
    goroutines
      (sched_step 1
         (sched_step 0
            (@initial accepting_engine 1
               [InsertRequest test_statement; QueryRequest (Some query_one)] 0)))
      !! 1 =
    Some {| result := list (gmap string any) + error; code := Ret res |}.
Proof.
  apply (query_goroutine_returns accepting_engine
           (sched_step 0
              (@initial accepting_engine 1
                 [InsertRequest test_statement; QueryRequest (Some query_one)] 0))
           1 1 (Some query_one) eq_refl).
Defined.

(** ** What an insert sends to the engine *)

(** The handler of a failed insert always returns; it has then either made
    no call and reports an error, or made one call, a corrective
    statement. *)
Lemma run_handleInsertError_calls {E : Env} (w : World E) stmt err :
  ∃ ret w',
    run (handleInsertError stmt (Some err)) w = Returned ret w'
    ∧ locked w' = locked w
    ∧ ((calls w' = calls w ∧ is_Some ret)
       ∨ ∃ ddl, is_ddl ddl ∧ calls w' = calls w ++ [ddl]).
Proof.
  unfold handleInsertError.
  destruct (MatchString missingTableRegex (Error err)).
  - rewrite run_CreateTable.
    destruct (env_range E (state w) (Columns stmt)) as [st kvs].
    destruct (CreateTable_loop kvs []) as [cols|e].
    + cbv zeta. destruct (env_exec E st _ []) as [st' r].
      eexists _, _. split; [done|]. split; [done|]. right.
      eexists. split; [|done]. eexists. by left.
    + eexists _, _. split; [done|]. split; [done|]. left. by split.
  - destruct (MatchString missingColumnRegex (Error err)).
    + rewrite run_AddColumn. unfold AddColumnQueryString.
      destruct (Columns stmt !! _) as [v|];
        [|eexists _, _; split; [done|]; split; [done|]; left; by split].
      destruct (negb (Valid (NewDataType v)));
        [eexists _, _; split; [done|]; split; [done|]; left; by split|].
      destruct (env_exec E (state w) _ []) as [st' r].
      eexists _, _. split; [done|]. split; [done|]. right.
      eexists. split; [|done]. eexists. by right.
    + eexists _, _. split; [done|]. split; [done|]. left. by split.
Qed.

Lemma run_Insert_loop_calls {E : Env} fuel stmt query values (w : World E) :
  ∃ trace,
    calls (final_world (run (Insert_loop fuel stmt query values) w)) =
      calls w ++ trace
    ∧ retry_trace (CallExec query values) trace.
Proof.
  revert w. induction fuel as [|fuel IH]; intros w.
  - exists []. split; [by rewrite app_nil_r|constructor].
  - destruct (env_exec E (state w) query values) as [st [err|]] eqn:Hexec.
    + rewrite (run_pass_rejected _ _ _ _ _ st err) by done.
      destruct (run_handleInsertError_calls
                  {| state := st; locked := locked w;
                     calls := calls w ++ [CallExec query values] |} stmt err)
        as (ret & w' & -> & _ & Hcalls).
      cbn [calls] in Hcalls. cbn [outcome_bind]. destruct ret as [e|].
      * cbn [final_world]. destruct Hcalls as [[-> _]|(ddl & Hddl & ->)].
        -- exists [CallExec query values]. split; [done|constructor].
        -- exists [CallExec query values; ddl].
           split; [by rewrite <- app_assoc|]. by repeat constructor.
      * destruct Hcalls as [[_ [? [=]]]|(ddl & Hddl & Hcalls)].
        destruct (IH w') as (trace & -> & Htrace). rewrite Hcalls.
        exists (CallExec query values :: ddl :: trace).
        split; [by rewrite <- !app_assoc|]. by constructor.
    + rewrite (run_pass_accepted _ _ _ _ _ st) by done.
      exists [CallExec query values]. split; [done|constructor].
Qed.

(** All that [Store.Insert] ever sends to the engine is one and the same
    [INSERT], text and values, once per attempt, and between two attempts
    one corrective statement, a [CREATE TABLE IF NOT EXISTS] or an
    [ALTER TABLE] without parameters; it never sends a query. *)
Theorem Insert_calls (E : Env) (w : World E) (fuel : nat)
    (stmt : InsertStatement) :
  let kvs := (env_range E (state w) (Columns stmt)).2 in
  let insert :=
    CallExec ("INSERT INTO " +:+ Table stmt +:+ " (" +:+ Join kvs.*1 ", "
                +:+ ") VALUES (" +:+ Join (replicate (length kvs) "?") ", "
                +:+ ")") kvs.*2 in
  ∃ trace,
    calls (final_world (run (Insert fuel stmt) w)) = calls w ++ trace
    ∧ retry_trace insert trace.
Proof.
  destruct (env_range E (state w) (Columns stmt)) as [st kvs] eqn:Hrange.
  cbn [snd]. cbv zeta. destruct (locked w) eqn:Hlocked.
  - exists []. rewrite run_Insert, Hlocked.
    split; [by rewrite app_nil_r|constructor].
  - rewrite (run_Insert_unlocked w fuel stmt st kvs) by done.
    destruct (run_Insert_loop_calls fuel stmt
                ("INSERT INTO " +:+ Table stmt +:+ " (" +:+ Join kvs.*1 ", "
                   +:+ ") VALUES (" +:+ Join (replicate (length kvs) "?") ", "
                   +:+ ")")
                kvs.*2 {| state := st; locked := true; calls := calls w |})
      as (trace & Hcalls & Htrace).
    exists trace. split; [|exact Htrace].
    destruct (run (Insert_loop fuel stmt _ kvs.*2) _) as [ret w'|w'|w'|w'];
      cbn [outcome_bind final_world] in *; try done.
    by destruct (locked w').
Qed.
